(** * Checklist / CAP service ([server.py]): data and consistency contract

    A shallow embedding of the request handlers of [server.py] and of the
    helper [_parse_ddmmyyyy], with the relational store as three tables of
    rows and the psycopg2 connection as a transaction over them. *)

From Stdlib Require Import ZArith NArith Ascii String DecimalString Lia.
From stdpp Require Import base tactics option list strings sorting.

Local Open Scope string_scope.
Local Open Scope list_scope.
Local Open Scope Z_scope.

(** ** Dates ([datetime.date]) *)

Module PyDate.

Record date := mkdate { year : Z; month : Z; day : Z }.

#[global] Instance date_eq_dec : EqDecision date.
Proof. solve_decision. Defined.

(** [calendar.isleap] *)
Definition is_leap (y : Z) : bool :=
  ((y mod 4 =? 0) && negb (y mod 100 =? 0)) || (y mod 400 =? 0).

(** [datetime._days_in_month] *)
Definition days_in_month (y m : Z) : Z :=
  if m =? 2 then (if is_leap y then 29 else 28)
  else if (m =? 4) || (m =? 6) || (m =? 9) || (m =? 11) then 30
  else 31.

(** [datetime._check_date_fields] with MINYEAR = 1 and MAXYEAR = 9999 *)
Definition check_date_fields (y m d : Z) : bool :=
  (1 <=? y) && (y <=? 9999) && (1 <=? m) && (m <=? 12)
  && (1 <=? d) && (d <=? days_in_month y m).

(** [date(year, month, day)]; [None] stands for the [ValueError] the
    constructor raises on fields out of range. *)
Definition date_new (y m d : Z) : option date :=
  if check_date_fields y m d then Some (mkdate y m d) else None.

(** Dates compare as their (year, month, day) triples. *)
Definition date_leb (a b : date) : bool :=
  (year a <? year b)
  || ((year a =? year b)
      && ((month a <? month b)
          || ((month a =? month b) && (day a <=? day b)))).

Definition date_le (a b : date) : Prop := date_leb a b = true.

(** Decimal rendering of a field, zero-padded on the left to [width]
    characters, as the [%0*d] conversions of [date.isoformat]. *)
Definition zfill (width : nat) (n : Z) : string :=
  let s := NilEmpty.string_of_uint (N.to_uint (Z.to_N n)) in
  let s := if String.eqb s "" then "0" else s in
  string_of_list_ascii
    (replicate (width - String.length s) "0"%char ++ list_ascii_of_string s).

(** [date.isoformat]: ["%04d-%02d-%02d"] *)
Definition isoformat (d : date) : string :=
  zfill 4 (year d) +:+ "-" +:+ zfill 2 (month d) +:+ "-" +:+ zfill 2 (day d).

End PyDate.
Export PyDate.

(** ** Schemas (request bodies) *)

Module OperatorUpdate.
Record t := mk { status : string; feedback : string; evidence_path : option string }.
End OperatorUpdate.

Module InspectorUpdate.
Record t := mk { acceptance : option string; feedback : option string }.
End InspectorUpdate.

Module CapUpsert.
Record t := mk { description : string; owner : option string; target_date : option string }.
End CapUpsert.

Module CapStep.
Record t := mk { step_no : Z; step_text : string; target_date : option string }.
End CapStep.

Module CapStepsReplace.
Record t := mk { steps : list CapStep.t }.
End CapStepsReplace.

(** ** The relational store

    The tables are known through the columns the statements of the
    handlers name.  A text or date column holds a value or NULL
    ([None]); a table is the list of its rows, a row inserted last. *)

Definition Timestamp := Z.

Module Item.
Record row := mk {
  checklist_id : Z;
  number : Z;
  reference : option string;
  question : option string;
  status : option string;
  evidence : option string;
  operator_feedback : option string;
  acceptance : option string;
  inspector_feedback : option string }.

Definition at_key (cid num : Z) (r : row) : Prop :=
  checklist_id r = cid /\ number r = num.

#[global] Instance at_key_dec cid num r : Decision (at_key cid num r).
Proof. unfold at_key. apply _. Defined.
End Item.

Module Cap.
Record row := mk {
  checklist_id : Z;
  item_number : Z;
  description : option string;
  owner : option string;
  target_date : option date;
  updated_at : option Timestamp }.

Definition at_key (cid num : Z) (r : row) : Prop :=
  checklist_id r = cid /\ item_number r = num.

#[global] Instance at_key_dec cid num r : Decision (at_key cid num r).
Proof. unfold at_key. apply _. Defined.
End Cap.

Module Step.
Record row := mk {
  checklist_id : Z;
  item_number : Z;
  step_no : Z;
  step_text : option string;
  target_date : option date }.

Definition at_key (cid num : Z) (r : row) : Prop :=
  checklist_id r = cid /\ item_number r = num.

#[global] Instance at_key_dec cid num r : Decision (at_key cid num r).
Proof. unfold at_key. apply _. Defined.
End Step.

Record Store := mkStore {
  checklist_items : list Item.row;
  caps : list Cap.row;
  cap_steps : list Step.row }.

(** The rows a [RealDictCursor] yields hold the columns the SELECT
    names. *)

Module ItemView.
Record t := mk {
  number : Z;
  reference : option string;
  question : option string;
  status : option string;
  evidence : option string;
  operator_feedback : option string;
  acceptance : option string;
  inspector_feedback : option string }.
End ItemView.

Module CapView.
Record t := mk {
  description : option string;
  owner : option string;
  target_date : option date }.
End CapView.

Module StepView.
Record t := mk {
  step_no : Z;
  step_text : option string;
  target_date : option date }.
End StepView.

(** ** The statements the handlers execute *)

Inductive Statement :=
| UPDATE_items_operator_evidence (status evidence feedback : string) (cid num : Z)
| UPDATE_items_operator (status feedback : string) (cid num : Z)
| UPDATE_items_inspector (acceptance feedback : option string) (cid num : Z)
| UPDATE_caps (description : string) (owner : option string) (td : option date) (cid num : Z)
| INSERT_caps (cid num : Z) (description : string) (owner : option string) (td : option date)
| DELETE_cap_steps (cid num : Z)
| INSERT_cap_steps (cid num idx : Z) (step_text : string) (d : option date)
| SELECT_max_target_date (cid num : Z).

(** What the server supplies to a transaction: [CURRENT_TIMESTAMP], and
    the value the table definition (not part of [server.py]) gives the
    column [caps.updated_at] of a row inserted without one. *)
Record Clock := mkClock {
  current_timestamp : Timestamp;
  caps_updated_at_default : option Timestamp }.

(** [UPDATE table SET ... WHERE key]: the rows at the key are rewritten,
    the others kept. *)
Definition update_where {R} (P : R -> Prop) `{forall r, Decision (P r)}
    (set : R -> R) (t : list R) : list R :=
  (fun r => if decide (P r) then set r else r) <$> t.

Definition set_operator_evidence (st ev fb : string) (r : Item.row) : Item.row :=
  Item.mk (Item.checklist_id r) (Item.number r) (Item.reference r) (Item.question r)
          (Some st) (Some ev) (Some fb)
          (Item.acceptance r) (Item.inspector_feedback r).

Definition set_operator (st fb : string) (r : Item.row) : Item.row :=
  Item.mk (Item.checklist_id r) (Item.number r) (Item.reference r) (Item.question r)
          (Some st) (Item.evidence r) (Some fb)
          (Item.acceptance r) (Item.inspector_feedback r).

Definition set_inspector (acc fb : option string) (r : Item.row) : Item.row :=
  Item.mk (Item.checklist_id r) (Item.number r) (Item.reference r) (Item.question r)
          (Item.status r) (Item.evidence r) (Item.operator_feedback r)
          acc fb.

Definition set_cap (clk : Clock) (descr : string) (own : option string)
    (td : option date) (r : Cap.row) : Cap.row :=
  Cap.mk (Cap.checklist_id r) (Cap.item_number r)
         (Some descr) own td (Some (current_timestamp clk)).

(** The effect of a data-changing statement on the tables, and its
    [rowcount]. *)
Definition run_statement (clk : Clock) (q : Statement) (db : Store) : Store * nat :=
  match q with
  | UPDATE_items_operator_evidence st ev fb cid num =>
      (mkStore (update_where (Item.at_key cid num) (set_operator_evidence st ev fb)
                             (checklist_items db))
               (caps db) (cap_steps db),
       length (filter (Item.at_key cid num) (checklist_items db)))
  | UPDATE_items_operator st fb cid num =>
      (mkStore (update_where (Item.at_key cid num) (set_operator st fb)
                             (checklist_items db))
               (caps db) (cap_steps db),
       length (filter (Item.at_key cid num) (checklist_items db)))
  | UPDATE_items_inspector acc fb cid num =>
      (mkStore (update_where (Item.at_key cid num) (set_inspector acc fb)
                             (checklist_items db))
               (caps db) (cap_steps db),
       length (filter (Item.at_key cid num) (checklist_items db)))
  | UPDATE_caps descr own td cid num =>
      (mkStore (checklist_items db)
               (update_where (Cap.at_key cid num) (set_cap clk descr own td) (caps db))
               (cap_steps db),
       length (filter (Cap.at_key cid num) (caps db)))
  | INSERT_caps cid num descr own td =>
      (mkStore (checklist_items db)
               (caps db ++ [Cap.mk cid num (Some descr) own td (caps_updated_at_default clk)])
               (cap_steps db),
       1%nat)
  | DELETE_cap_steps cid num =>
      (mkStore (checklist_items db) (caps db)
               (filter (fun r => ~ Step.at_key cid num r) (cap_steps db)),
       length (filter (Step.at_key cid num) (cap_steps db)))
  | INSERT_cap_steps cid num idx txt d =>
      (mkStore (checklist_items db) (caps db)
               (cap_steps db ++ [Step.mk cid num idx (Some txt) d]),
       1%nat)
  | SELECT_max_target_date cid num =>
      (db, 1%nat)
  end.

(** [SELECT MAX(target_date)]: NULLs do not take part; NULL when no row
    carries a date. *)
Definition later (acc : option date) (d : option date) : option date :=
  match d, acc with
  | None, _ => acc
  | Some x, None => Some x
  | Some x, Some a => if date_leb a x then Some x else Some a
  end.

Definition sql_max (ds : list (option date)) : option date :=
  fold_left later ds None.

Definition max_target_date (cid num : Z) (db : Store) : option date :=
  sql_max (Step.target_date <$> filter (Step.at_key cid num) (cap_steps db)).

(** ** The connection

    A psycopg2 connection is a transaction over the store: statements
    change [working], [commit] makes it the [committed] state, [rollback]
    drops it.  A statement opens a transaction ([in_transaction]), commit
    and rollback end it.  [cur_bound] tells whether the handler's
    variable [cur] holds a cursor.  Every driver call but [rollback],
    [close] and the return to the pool can raise; [fault k] tells whether
    the [k]-th call of the request does, and with which message;
    [pool_keeps] whether the pool, given the connection back, keeps it
    (it has room and takes it) or the connection ends closed. *)

Inductive Call :=
| Cursor
| Execute (q : Statement)
| Commit
| Rollback
| CursorClose
| PutConn
| Close.                     (* conn.close(): the server rolls back what is open *)

Record Conn := mkConn {
  committed : Store;
  working : Store;
  calls : nat;
  trace : list Call;
  in_transaction : bool;
  cur_bound : bool }.

Record Env := mkEnv {
  pool_error : option string;
  fault : nat -> option string;
  clock : Clock;
  pool_keeps : bool }.

Inductive Exn :=
| HTTPException (status_code : Z) (detail : string)
| DatabaseError (msg : string).

(** [str(e)] *)
Definition exn_str (e : Exn) : string :=
  match e with
  | HTTPException c d => zfill 0 c +:+ ": " +:+ d
  | DatabaseError m => m
  end.

Inductive Res (A : Type) :=
| Ok (a : A)
| Raise (e : Exn).
Arguments Ok {A} a.
Arguments Raise {A} e.

Definition M (A : Type) : Type := Conn -> Res A * Conn.

Definition ret {A} (a : A) : M A := fun c => (Ok a, c).
Definition raise {A} (e : Exn) : M A := fun c => (Raise e, c).
Definition bind {A B} (m : M A) (k : A -> M B) : M B :=
  fun c => match m c with
           | (Ok a, c') => k a c'
           | (Raise e, c') => (Raise e, c')
           end.

Declare Scope db_scope.
Delimit Scope db_scope with db.
Notation "x <- m ;; k" := (bind m (fun x => k))
  (at level 100, m at next level, right associativity) : db_scope.
Notation "m ;; k" := (bind m (fun _ => k))
  (at level 100, right associativity) : db_scope.

(** [try: body except Exception as e: handler(e)] *)
Definition try_except {A} (body : M A) (handler : Exn -> M A) : M A :=
  fun c => match body c with
           | (Ok a, c') => (Ok a, c')
           | (Raise e, c') => handler e c'
           end.

(** [try: body finally: fin], for a [fin] that does not raise *)
Definition try_finally {A} (body : M A) (fin : M unit) : M A :=
  fun c => let (r, c') := body c in (r, snd (fin c')).

(** A driver call that can raise: [failed] is what the attempt leaves
    of the connection when it does. *)
Definition driver_call {A} (env : Env) (what : Call)
    (failed : Conn -> Conn) (effect : Conn -> A * Conn) : M A :=
  fun c =>
    let c1 := mkConn (committed c) (working c) (S (calls c)) (trace c ++ [what])
                     (in_transaction c) (cur_bound c) in
    match fault env (calls c) with
    | Some msg => (Raise (DatabaseError msg), failed c1)
    | None => let (a, c2) := effect c1 in (Ok a, c2)
    end.

(** [cur = conn.cursor()] *)
Definition cursor (env : Env) : M unit :=
  driver_call env Cursor (fun c => c)
    (fun c => (tt, mkConn (committed c) (working c) (calls c) (trace c)
                          (in_transaction c) true)).

(** [cur.execute(q, params)] followed by a read of [cur.rowcount]; the
    statement, also one that fails, leaves a transaction open. *)
Definition execute (env : Env) (q : Statement) : M nat :=
  driver_call env (Execute q)
    (fun c => mkConn (committed c) (working c) (calls c) (trace c)
                     true (cur_bound c))
    (fun c => let (w, n) := run_statement (clock env) q (working c) in
              (n, mkConn (committed c) w (calls c) (trace c) true (cur_bound c))).

(** [conn.commit()] *)
Definition commit (env : Env) : M unit :=
  driver_call env Commit (fun c => c)
    (fun c => (tt, mkConn (working c) (working c) (calls c) (trace c)
                          false (cur_bound c))).

(** [conn.rollback()], taken not to fail *)
Definition rollback : M unit :=
  fun c => (Ok tt, mkConn (committed c) (committed c) (calls c)
                          (trace c ++ [Rollback]) false (cur_bound c)).

(** [try: cur.close() except Exception: pass]: when [conn.cursor()]
    raised, [cur] is unbound and nothing reaches the driver. *)
Definition cursor_close : M unit :=
  fun c => (Ok tt, mkConn (committed c) (working c) (calls c)
                          (if cur_bound c then trace c ++ [CursorClose] else trace c)
                          (in_transaction c) (cur_bound c)).

(** [put_conn(conn)]: the connection goes back to the pool.  As
    psycopg2's [SimpleConnectionPool.putconn] has it, a connection still
    in a transaction is rolled back by the pool that keeps it, and closed
    by one that does not (or that fails, through the [except] of
    [put_conn]); either way what was not committed is dropped.  What the
    pool does with an idle connection is not recorded. *)
Definition put_conn (env : Env) : M unit :=
  fun c =>
    (Ok tt,
     mkConn (committed c)
            (if in_transaction c then committed c else working c)
            (calls c)
            (trace c ++ PutConn ::
               (if in_transaction c
                then [if pool_keeps env then Rollback else Close]
                else []))
            false (cur_bound c)).

(** A request: [get_conn()] on entry, then the handler's body on the
    connection.  When the pool gives no connection nothing is called. *)
Definition Handler (A : Type) : Type := Store -> Res A * Conn.

Definition fresh (db : Store) : Conn := mkConn db db 0 [] false false.

Definition get_conn {A} (env : Env) (body : M A) : Handler A :=
  fun db =>
    match pool_error env with
    | Some e => (Raise (HTTPException 500 ("DB pool error: " +:+ e)), fresh db)
    | None => body (fresh db)
    end.

(** [for x in l: f(x)] *)
Fixpoint for_each {A} (f : A -> M unit) (l : list A) : M unit :=
  match l with
  | [] => ret tt
  | x :: l' => bind (f x) (fun _ => for_each f l')
  end.

(** [enumerate(l, start)] *)
Definition enumerate {A} (start : Z) (l : list A) : list (Z * A) :=
  imap (fun i x => (start + Z.of_nat i, x)) l.

(** ** [datetime.strptime(s, "%d.%m.%Y")]

    A [string] holds the UTF-8 bytes of a Python text; the matcher works
    on its code points.  The format is turned into a regular expression,
    one group per directive, matched from the start of the text by a
    backtracking matcher that tries the alternatives of a group in the
    order they are written; the text must be consumed whole.  The groups
    are those of CPython's [_strptime] directive table.  [\d] takes every
    decimal digit of the Unicode database the interpreter carries, and so
    does [int]; of that database the part beyond ASCII is a parameter. *)

Class Unicode := {
  (** the digit a code point beyond ASCII stands for, when it is a
      decimal digit (general category Nd) *)
  decimal_digit : N -> option Z }.

Section Service.
Context {unicode : Unicode}.

Definition code (c : ascii) : N := N_of_ascii c.

(** [str.encode("utf-8")] read backwards: the code points of a text
    from its bytes; [None] for bytes that are no text. *)
Definition continuation (b : N) : bool := ((128 <=? b) && (b <? 192))%N.

Fixpoint utf8_decode (s : list ascii) : option (list N) :=
  match s with
  | [] => Some []
  | b0 :: s1 =>
      if (code b0 <? 128)%N then cons (code b0) <$> utf8_decode s1
      else if ((194 <=? code b0) && (code b0 <? 224))%N then
        match s1 with
        | b1 :: s2 =>
            if continuation (code b1)
            then cons ((code b0 - 192) * 64 + (code b1 - 128))%N <$> utf8_decode s2
            else None
        | _ => None
        end
      else if ((224 <=? code b0) && (code b0 <? 240))%N then
        match s1 with
        | b1 :: b2 :: s3 =>
            let cp := ((code b0 - 224) * 4096 + (code b1 - 128) * 64
                       + (code b2 - 128))%N in
            if continuation (code b1) && continuation (code b2)
               && (2048 <=? cp)%N && negb ((55296 <=? cp) && (cp <=? 57343))%N
            then cons cp <$> utf8_decode s3
            else None
        | _ => None
        end
      else if ((240 <=? code b0) && (code b0 <? 245))%N then
        match s1 with
        | b1 :: b2 :: b3 :: s4 =>
            let cp := ((code b0 - 240) * 262144 + (code b1 - 128) * 4096
                       + (code b2 - 128) * 64 + (code b3 - 128))%N in
            if continuation (code b1) && continuation (code b2)
               && continuation (code b3)
               && (65536 <=? cp)%N && (cp <=? 1114111)%N
            then cons cp <$> utf8_decode s4
            else None
        | _ => None
        end
      else None
  end.

(** The digit a code point stands for: [str.isdecimal] with its
    value. *)
Definition decimal (c : N) : option Z :=
  if (c <? 128)%N
  then (if ((48 <=? c) && (c <=? 57))%N then Some (Z.of_N c - 48) else None)
  else decimal_digit c.

(** A character class of the directive table. *)
Inductive cclass :=
| Lit (c : ascii)            (* that character *)
| Range (lo hi : ascii)      (* [lo-hi] *)
| Decimal.                   (* \d *)

Definition in_class (k : cclass) (c : N) : bool :=
  match k with
  | Lit a => (code a =? c)%N
  | Range lo hi => ((code lo <=? c) && (c <=? code hi))%N
  | Decimal => match decimal c with Some _ => true | None => false end
  end.

Definition digit : cclass := Decimal.

(** An alternative is a sequence of classes, a group an ordered choice
    of alternatives. *)
Definition alternative := list cclass.
Definition group := list alternative.

(** [%d]: [3[0-1]|[1-2]\d|0[1-9]|[1-9]| [1-9]] *)
Definition directive_d : group :=
  [ [Lit "3"; Range "0" "1"];
    [Range "1" "2"; digit];
    [Lit "0"; Range "1" "9"];
    [Range "1" "9"];
    [Lit " "; Range "1" "9"] ].

(** [%m]: [1[0-2]|0[1-9]|[1-9]] *)
Definition directive_m : group :=
  [ [Lit "1"; Range "0" "2"];
    [Lit "0"; Range "1" "9"];
    [Range "1" "9"] ].

(** [%Y]: [\d\d\d\d] *)
Definition directive_Y : group := [ [digit; digit; digit; digit] ].

(** A literal character of the format, escaped. *)
Definition literal (c : ascii) : group := [ [Lit c] ].

(** The pattern of ["%d.%m.%Y"]. *)
Definition format_regex : list group :=
  [ directive_d; literal "."; directive_m; literal "."; directive_Y ].

(** One alternative against a prefix of the text: the text it consumed
    and the rest. *)
Fixpoint match_alternative (ks : alternative) (s : list N)
  : option (list N * list N) :=
  match ks with
  | [] => Some ([], s)
  | k :: ks' =>
      match s with
      | [] => None
      | c :: s' =>
          if in_class k c then
            match match_alternative ks' s' with
            | Some (cap, rest) => Some (c :: cap, rest)
            | None => None
            end
          else None
      end
  end.

(** All the ways a group matches, in the order the matcher tries them. *)
Definition match_group (g : group) (s : list N)
  : list (list N * list N) :=
  omap (fun alt => match_alternative alt s) g.

(** All the ways a sequence of groups matches, in backtracking order:
    the captured texts and the unconsumed rest. *)
Fixpoint match_groups (gs : list group) (s : list N)
  : list (list (list N) * list N) :=
  match gs with
  | [] => [([], s)]
  | g :: gs' =>
      mbind (M := list) (fun '(cap, rest) =>
               fmap (M := list) (fun '(caps, rest') => (cap :: caps, rest'))
                    (match_groups gs' rest))
            (match_group g s)
  end.

(** [re.match]: the first match in backtracking order. *)
Definition re_match (gs : list group) (s : list N)
  : option (list (list N) * list N) :=
  head (match_groups gs s).

(** [int(text)] on a captured group: leading blanks are skipped, the
    digits, of any script, are read in base ten. *)
Definition digit_value (c : N) : Z :=
  match decimal c with Some v => v | None => 0 end.

Fixpoint lstrip (s : list N) : list N :=
  match s with
  | c :: s' => if (c =? code " ")%N then lstrip s' else s
  | [] => []
  end.

Definition int (s : list N) : Z :=
  fold_left (fun acc c => 10 * acc + digit_value c) (lstrip s) 0.

Inductive strptime_result :=
| Parsed (d : date)
| ValueError (msg : string).

(** [datetime.strptime(s, "%d.%m.%Y").date()] *)
Definition strptime (s : string) : strptime_result :=
  match utf8_decode (list_ascii_of_string s) with
  | None => ValueError "not a text"
  | Some text =>
      match re_match format_regex text with
      | None => ValueError "time data does not match format"
      | Some (caps, rest) =>
          match rest with
          | _ :: _ => ValueError "unconverted data remains"
          | [] =>
              match caps with
              | [d; _; m; _; y] =>
                  match date_new (int y) (int m) (int d) with
                  | Some dt => Parsed dt
                  | None => ValueError "day is out of range for month"
                  end
              | _ => ValueError "time data does not match format"
              end
          end
      end
  end.

(** ** Helpers *)

(** [_parse_ddmmyyyy]: [None] for an absent or empty text and for every
    text [strptime] rejects with [ValueError]. *)
Definition _parse_ddmmyyyy (s : option string) : option date :=
  match s with
  | None => None
  | Some s =>
      if String.eqb s "" then None
      else match strptime s with
           | Parsed d => Some d
           | ValueError _ => None
           end
  end.

(** ** Handlers *)

Inductive Response :=
| ok_true                                  (* {"ok": True} *)
| ok_count (count : nat)                   (* {"ok": True, "count": n} *)
| final_date (d : option string).          (* {"final_date": ...} *)

Local Open Scope db_scope.

Definition update_operator (env : Env) (checklist_id number : Z)
    (body : OperatorUpdate.t) : Handler Response :=
  get_conn env
    (try_finally
       (try_except
          (cursor env ;;
           rowcount <-
             match OperatorUpdate.evidence_path body with
             | Some evidence_path =>
                 execute env
                   (UPDATE_items_operator_evidence (OperatorUpdate.status body)
                      evidence_path (OperatorUpdate.feedback body)
                      checklist_id number)
             | None =>
                 execute env
                   (UPDATE_items_operator (OperatorUpdate.status body)
                      (OperatorUpdate.feedback body) checklist_id number)
             end ;;
           if Nat.eqb rowcount 0
           then raise (HTTPException 404 "Item not found")
           else (commit env ;; ret ok_true))
          (fun e =>
             match e with
             | HTTPException _ _ => raise e
             | _ => rollback ;;
                    raise (HTTPException 500 ("Operator update error: " +:+ exn_str e))
             end))
       (cursor_close ;; put_conn env)).

Definition update_inspector (env : Env) (checklist_id number : Z)
    (body : InspectorUpdate.t) : Handler Response :=
  get_conn env
    (try_finally
       (try_except
          (cursor env ;;
           rowcount <-
             execute env
               (UPDATE_items_inspector (InspectorUpdate.acceptance body)
                  (InspectorUpdate.feedback body) checklist_id number) ;;
           if Nat.eqb rowcount 0
           then raise (HTTPException 404 "Item not found")
           else (commit env ;; ret ok_true))
          (fun e =>
             match e with
             | HTTPException _ _ => raise e
             | _ => rollback ;;
                    raise (HTTPException 500 ("Inspector update error: " +:+ exn_str e))
             end))
       (cursor_close ;; put_conn env)).

Definition upsert_cap (env : Env) (checklist_id item_number : Z)
    (body : CapUpsert.t) : Handler Response :=
  get_conn env
    (try_finally
       (try_except
          (cursor env ;;
           let td := _parse_ddmmyyyy (CapUpsert.target_date body) in
           rowcount <-
             execute env
               (UPDATE_caps (CapUpsert.description body) (CapUpsert.owner body) td
                  checklist_id item_number) ;;
           (if Nat.eqb rowcount 0
            then (execute env
                    (INSERT_caps checklist_id item_number
                       (CapUpsert.description body) (CapUpsert.owner body) td) ;;
                  ret tt)
            else ret tt) ;;
           commit env ;;
           ret ok_true)
          (fun e =>
             rollback ;;
             raise (HTTPException 500 ("Upsert CAP error: " +:+ exn_str e))))
       (cursor_close ;; put_conn env)).

Definition replace_cap_steps (env : Env) (checklist_id item_number : Z)
    (body : CapStepsReplace.t) : Handler Response :=
  get_conn env
    (try_finally
       (try_except
          (cursor env ;;
           execute env (DELETE_cap_steps checklist_id item_number) ;;
           for_each
             (fun '(idx, s) =>
                let d := _parse_ddmmyyyy (CapStep.target_date s) in
                execute env
                  (INSERT_cap_steps checklist_id item_number idx
                     (CapStep.step_text s) d) ;;
                ret tt)
             (enumerate 1 (CapStepsReplace.steps body)) ;;
           commit env ;;
           ret (ok_count (length (CapStepsReplace.steps body))))
          (fun e =>
             rollback ;;
             raise (HTTPException 500 ("Replace CAP steps error: " +:+ exn_str e))))
       (cursor_close ;; put_conn env)).

(** [cur.fetchone()] after [SELECT MAX(target_date)]: an aggregate
    without grouping yields one row whatever the table holds. *)
Definition fetchone_max (cid num : Z) : M (option (option date)) :=
  fun c => (Ok (Some (max_target_date cid num (working c))), c).

Definition compute_cap_final_date (env : Env) (checklist_id item_number : Z)
    : Handler Response :=
  get_conn env
    (try_finally
       (try_except
          (cursor env ;;
           execute env (SELECT_max_target_date checklist_id item_number) ;;
           row <- fetchone_max checklist_id item_number ;;
           let d := match row with Some r => r | None => None end in
           ret (final_date (match d with Some d => Some (isoformat d) | None => None end)))
          (fun e =>
             raise (HTTPException 500 ("Compute final date error: " +:+ exn_str e))))
       (cursor_close ;; put_conn env)).

(** The rows of a table at a key. *)
Definition steps_of (cid num : Z) (db : Store) : list Step.row :=
  filter (Step.at_key cid num) (cap_steps db).

Definition caps_of (cid num : Z) (db : Store) : list Cap.row :=
  filter (Cap.at_key cid num) (caps db).

Definition items_of (cid num : Z) (db : Store) : list Item.row :=
  filter (Item.at_key cid num) (checklist_items db).

(** An environment without faults. *)
Definition healthy (env : Env) : Prop :=
  pool_error env = None /\ forall k, fault env k = None.

Definition quiet (clk : Clock) : Env := mkEnv None (fun _ => None) clk true.


(** ** Vocabulary of the statements *)

(** A text matches an alternative class by class. *)
Definition matches (alt : alternative) (cap : list N) : Prop :=
  Forall2 (fun k c => in_class k c = true) alt cap.

Definition group_matches (g : group) (cap : list N) : Prop :=
  Exists (fun alt => matches alt cap) g.

(** The captures of a directive hold no dot, so the dots of the text
    are those of the format. *)
Definition dot_free (cap : list N) : Prop := Forall (fun c => c <> code ".") cap.

Definition excludes_dot (g : group) : Prop :=
  Forall (Forall (fun k => in_class k (code ".") = false)) g.

(** A decimal digit of any script, and one of ASCII. *)
Definition is_digit (c : N) : Prop := in_class digit c = true.

Definition ascii_digit (c : N) : Prop := (code "0" <= c <= code "9")%N.

(** The spellings [strptime] takes for a day, a month and a year.  The
    digits are those of ASCII, but for the second digit of a day that
    begins with 1 or 2 and the four digits of the year, which may be of
    any script. *)
Inductive day_text : list N -> Prop :=
| day_two a b :
    ascii_digit a -> is_digit b ->
    ascii_digit b \/ a = code "1" \/ a = code "2" ->
    day_text [a; b]
| day_one b : ascii_digit b -> day_text [b]
| day_blank b : ascii_digit b -> day_text [code " "; b].

Inductive month_text : list N -> Prop :=
| month_two a b : ascii_digit a -> ascii_digit b -> month_text [a; b]
| month_one b : ascii_digit b -> month_text [b].

Inductive year_text : list N -> Prop :=
| year_four a b c d :
    is_digit a -> is_digit b -> is_digit c -> is_digit d -> year_text [a; b; c; d].

(** The pattern as the specification words it: two digits, a dot, two
    digits, a dot, four digits; digits of any script. *)
Definition DD_MM_YYYY (s : string) : Prop :=
  exists a b c d e f g h,
    Forall is_digit [a; b; c; d; e; f; g; h] /\
    utf8_decode (list_ascii_of_string s)
    = Some [a; b; code "."; c; d; code "."; e; f; g; h].

(** The rows [replace_cap_steps] writes for a list of steps: numbered
    from one in the order of the list. *)
Definition renumbered (cid num : Z) (l : list CapStep.t) : list Step.row :=
  imap (fun i s => Step.mk cid num (1 + Z.of_nat i)
                     (Some (CapStep.step_text s))
                     (_parse_ddmmyyyy (CapStep.target_date s))) l.

(** The rows the loop of [replace_cap_steps] inserts, counting from
    [start]. *)
Definition inserted (cid num start : Z) (l : list CapStep.t) : list Step.row :=
  (fun p : Z * CapStep.t =>
     Step.mk cid num p.1 (Some (CapStep.step_text p.2))
             (_parse_ddmmyyyy (CapStep.target_date p.2)))
    <$> enumerate start l.

(** The operations that write. *)
Inductive Mutation :=
| OperatorUpdateOf (checklist_id number : Z) (body : OperatorUpdate.t)
| InspectorUpdateOf (checklist_id number : Z) (body : InspectorUpdate.t)
| CapUpsertOf (checklist_id item_number : Z) (body : CapUpsert.t)
| CapStepsReplaceOf (checklist_id item_number : Z) (body : CapStepsReplace.t).

Definition run_mutation (env : Env) (op : Mutation) : Handler Response :=
  match op with
  | OperatorUpdateOf cid num body => update_operator env cid num body
  | InspectorUpdateOf cid num body => update_inspector env cid num body
  | CapUpsertOf cid num body => upsert_cap env cid num body
  | CapStepsReplaceOf cid num body => replace_cap_steps env cid num body
  end.

Definition not_found : Exn := HTTPException 404 "Item not found".

(** An operator update leaves a row as it was but for the operator
    fields; [evidence] changes when a path comes with the request. *)
Definition operator_updated (body : OperatorUpdate.t) (old new : Item.row) : Prop :=
  Item.status new = Some (OperatorUpdate.status body) /\
  Item.operator_feedback new = Some (OperatorUpdate.feedback body) /\
  Item.evidence new
  = match OperatorUpdate.evidence_path body with
    | Some p => Some p
    | None => Item.evidence old
    end /\
  Item.checklist_id new = Item.checklist_id old /\
  Item.number new = Item.number old /\
  Item.reference new = Item.reference old /\
  Item.question new = Item.question old /\
  Item.acceptance new = Item.acceptance old /\
  Item.inspector_feedback new = Item.inspector_feedback old.

(** An inspector update writes both inspector fields as they came. *)
Definition inspector_updated (body : InspectorUpdate.t) (old new : Item.row) : Prop :=
  Item.acceptance new = InspectorUpdate.acceptance body /\
  Item.inspector_feedback new = InspectorUpdate.feedback body /\
  Item.checklist_id new = Item.checklist_id old /\
  Item.number new = Item.number old /\
  Item.reference new = Item.reference old /\
  Item.question new = Item.question old /\
  Item.status new = Item.status old /\
  Item.evidence new = Item.evidence old /\
  Item.operator_feedback new = Item.operator_feedback old.

(** ** Read handlers *)

Definition item_view (r : Item.row) : ItemView.t :=
  ItemView.mk (Item.number r) (Item.reference r) (Item.question r)
              (Item.status r) (Item.evidence r) (Item.operator_feedback r)
              (Item.acceptance r) (Item.inspector_feedback r).

Definition cap_view (r : Cap.row) : CapView.t :=
  CapView.mk (Cap.description r) (Cap.owner r) (Cap.target_date r).

Definition step_view (r : Step.row) : StepView.t :=
  StepView.mk (Step.step_no r) (Step.step_text r) (Step.target_date r).

(** [ORDER BY key ASC].  The order of rows with the same key is the
    database's choice; here the later row of the table comes first. *)
Fixpoint insert_by {R} (key : R -> Z) (r : R) (l : list R) : list R :=
  match l with
  | [] => [r]
  | x :: l' => if key r <? key x then r :: x :: l' else x :: insert_by key r l'
  end.

Definition order_by {R} (key : R -> Z) (l : list R) : list R :=
  foldr (insert_by key) [] l.

(** The rows of a checklist. *)
Definition items_in (cid : Z) (db : Store) : list Item.row :=
  filter (fun r => Item.checklist_id r = cid) (checklist_items db).

(** [cur.execute(select, params)] of a read handler and the result set
    it leaves with the cursor: the call can raise as any driver call,
    opens a transaction as any statement, and changes nothing.  (The
    trace of [Call]s lists the statements of the operations that write
    and is left as it is.) *)
Definition query {A} (env : Env) (result : Store -> A) : M A :=
  fun c =>
    let c1 := mkConn (committed c) (working c) (S (calls c)) (trace c)
                     true (cur_bound c) in
    match fault env (calls c) with
    | Some msg => (Raise (DatabaseError msg), c1)
    | None => (Ok (result (working c)), c1)
    end.

Definition get_checklist_items (env : Env) (checklist_id : Z)
    : Handler (list ItemView.t) :=
  get_conn env
    (try_finally
       (try_except
          (cursor env ;;
           rows <- query env
                     (fun db => item_view <$> order_by Item.number
                                               (items_in checklist_id db)) ;;
           ret rows)
          (fun e =>
             raise (HTTPException 500 ("Fetch items error: " +:+ exn_str e))))
       (cursor_close ;; put_conn env)).

(** [row or {}]: [None] stands for the empty object. *)
Definition get_cap (env : Env) (checklist_id item_number : Z)
    : Handler (option CapView.t) :=
  get_conn env
    (try_finally
       (try_except
          (cursor env ;;
           row <- query env
                    (fun db => head (cap_view <$> caps_of checklist_id item_number db)) ;;
           ret row)
          (fun e =>
             raise (HTTPException 500 ("Get CAP error: " +:+ exn_str e))))
       (cursor_close ;; put_conn env)).

Definition get_cap_steps (env : Env) (checklist_id item_number : Z)
    : Handler (list StepView.t) :=
  get_conn env
    (try_finally
       (try_except
          (cursor env ;;
           rows <- query env
                     (fun db => step_view <$> order_by Step.step_no
                                               (steps_of checklist_id item_number db)) ;;
           ret rows)
          (fun e =>
             raise (HTTPException 500 ("Get CAP steps error: " +:+ exn_str e))))
       (cursor_close ;; put_conn env)).

(** ** Vocabulary of the further statements *)

(** At most one row of [caps] for a key. *)
Definition one_cap_per_key (db : Store) : Prop :=
  forall cid num, (length (caps_of cid num db) <= 1)%nat.

(** No two rows of [cap_steps] with the same checklist, item and
    number. *)
Definition step_key (r : Step.row) : Z * Z * Z :=
  (Step.checklist_id r, Step.item_number r, Step.step_no r).

Definition step_keys_distinct (db : Store) : Prop :=
  NoDup (step_key <$> cap_steps db).

(** The columns of a checklist item the service never writes. *)
Definition item_seed (r : Item.row) : Z * Z * option string * option string :=
  (Item.checklist_id r, Item.number r, Item.reference r, Item.question r).

(** A date written [DD.MM.YYYY], as a client sends it. *)
Definition digit_char (k : Z) : ascii := ascii_of_N (Z.to_N (48 + k)).

Definition two_digits (n : Z) : list ascii :=
  [digit_char (n / 10); digit_char (n mod 10)].

Definition four_digits (n : Z) : list ascii :=
  two_digits (n / 100) ++ two_digits (n mod 100).

Definition ddmmyyyy (d : date) : string :=
  string_of_list_ascii
    (two_digits (day d) ++ "."%char :: two_digits (month d)
       ++ "."%char :: four_digits (year d)).

(** The rows [get_cap_steps] shows for a list of steps stored by
    [replace_cap_steps]. *)
Definition shown_steps (l : list CapStep.t) : list StepView.t :=
  imap (fun i s => StepView.mk (1 + Z.of_nat i)
                     (Some (CapStep.step_text s))
                     (_parse_ddmmyyyy (CapStep.target_date s))) l.

(** What an item update at a key makes of the table. *)
Definition operator_set (body : OperatorUpdate.t) : Item.row -> Item.row :=
  match OperatorUpdate.evidence_path body with
  | Some p => set_operator_evidence (OperatorUpdate.status body) p
                (OperatorUpdate.feedback body)
  | None => set_operator (OperatorUpdate.status body) (OperatorUpdate.feedback body)
  end.

(** What the committed store is after a mutation that did not fail. *)
Definition written (clk : Clock) (op : Mutation) (db : Store) : Store :=
  committed (run_mutation (quiet clk) op db).2.

(** ** Sample data *)

Definition sample_clock : Clock := mkClock 1700000000 (Some 1700000000).

Definition sample_item : Item.row :=
  Item.mk 1 1 (Some "R-1") (Some "Is the guard fitted?")
          (Some "open") (Some "photo.png") (Some "")
          (Some "rejected") (Some "fit the guard").

Definition sample_store : Store :=
  mkStore [sample_item;
           Item.mk 1 2 (Some "R-2") (Some "Is the exit clear?")
                   None None None None None]
          []
          [Step.mk 7 3 1 (Some "old step") None;
           Step.mk 7 4 1 (Some "step of another item") None].

Definition sample_steps : CapStepsReplace.t :=
  CapStepsReplace.mk [CapStep.mk 99 "a" (Some "05.01.2024");
                      CapStep.mk 1 "b" None].

(** A driver whose fourth call of a request fails. *)
Definition failing_env : Env :=
  mkEnv None (fun k => if Nat.eqb k 3 then Some "connection lost" else None)
        sample_clock true.

(** The decimal digits beyond ASCII of Unicode 14.0, the database
    CPython 3.11 carries: they come in runs of ten, zero to nine; these
    are the zeros (U+0660 Arabic-Indic, U+06F0 Extended Arabic-Indic,
    U+07C0 NKo, U+0966 Devanagari, ..., U+FF10 fullwidth, ...,
    U+1FBF0 segmented). *)
Definition unicode_14_zeros : list N :=
  [1632; 1776; 1984; 2406; 2534; 2662; 2790; 2918; 3046; 3174; 3302; 3430;
   3558; 3664; 3792; 3872; 4160; 4240; 6112; 6160; 6470; 6608; 6784; 6800;
   6992; 7088; 7232; 7248; 42528; 43216; 43264; 43472; 43504; 43600; 44016;
   65296; 66720; 68912; 69734; 69872; 69942; 70096; 70384; 70736; 70864;
   71248; 71360; 71472; 71904; 72016; 72784; 73040; 73120; 92768; 92864;
   93008; 120782; 120792; 120802; 120812; 120822; 123200; 123632; 125264;
   130032]%N.

Definition unicode_14 : Unicode :=
  {| decimal_digit c :=
       head (omap (fun zero =>
                     if ((zero <=? c) && (c <? zero + 10))%N
                     then Some (Z.of_N (c - zero)) else None)
                  unicode_14_zeros) |}.

(** ** The date parser *)

Lemma match_alternative_sound ks : forall s cap rest,
match_alternative ks s = Some (cap, rest) -> s = cap ++ rest /\ matches ks cap.
Proof.
induction ks as [|k ks IH]; intros s cap rest; simpl.
- intros [= <- <-]. split; [done | constructor].
- destruct s as [|c s']; [done|].
  destruct (in_class k c) eqn:Hk; [|done].
  destruct (match_alternative ks s') as [[cap' rest']|] eqn:Hm; [|done].
  intros [= <- <-]. destruct (IH _ _ _ Hm) as [-> Hcap].
  split; [done | by constructor].
Qed.

Lemma match_alternative_complete ks : forall cap rest,
matches ks cap -> match_alternative ks (cap ++ rest) = Some (cap, rest).
Proof.
induction ks as [|k ks IH]; intros cap rest H; inversion H; subst; simpl.
- done.
- rewrite H2. by rewrite IH.
Qed.

Lemma match_alternative_spec ks s cap rest :
match_alternative ks s = Some (cap, rest) <-> s = cap ++ rest /\ matches ks cap.
Proof.
split; [apply match_alternative_sound|].
intros [-> H]. by apply match_alternative_complete.
Qed.

Lemma match_group_spec g s cap rest :
(cap, rest) ∈ match_group g s <-> s = cap ++ rest /\ group_matches g cap.
Proof.
unfold match_group, group_matches.
rewrite list_elem_of_omap, Exists_exists. split.
- intros (alt & Hin & Hm). apply match_alternative_spec in Hm as [-> Hm].
  split; [done|]. by exists alt.
- intros (-> & alt & Hin & Hm). exists alt.
  split; [done | by apply match_alternative_spec].
Qed.

Lemma match_groups_spec gs : forall s caps rest,
(caps, rest) ∈ match_groups gs s <->
s = concat caps ++ rest /\ Forall2 group_matches gs caps.
Proof.
induction gs as [|g gs IH]; intros s caps rest; simpl.
- rewrite list_elem_of_singleton. split.
  + intros [= -> ->]. split; [done | constructor].
  + intros [-> H]. inversion H. done.
- rewrite list_elem_of_bind. split.
  + intros ([cap r] & Hin & Hg). apply match_group_spec in Hg as [-> Hg].
    apply list_elem_of_fmap in Hin as ([caps' r'] & [= -> ->] & Hin).
    apply IH in Hin as [-> Hin]. split; [| by constructor].
    simpl. by rewrite <- app_assoc.
  + intros [-> H]. inversion H as [|g' cap gs' caps' Hg Hgs]; subst.
    exists (cap, concat caps' ++ rest). split.
    * apply list_elem_of_fmap. exists (caps', rest). split; [done|].
      by apply IH.
    * apply match_group_spec. split; [|done]. simpl. by rewrite <- app_assoc.
Qed.


(** Class membership as arithmetic on character codes. *)
Lemma in_class_Range lo hi c :
in_class (Range lo hi) c = true <-> (code lo <= c <= code hi)%N.
Proof. simpl. rewrite andb_true_iff, !N.leb_le. done. Qed.

Lemma in_class_Lit a c : in_class (Lit a) c = true <-> c = code a.
Proof. simpl. rewrite N.eqb_eq. split; congruence. Qed.

(** The digits of ASCII are decimal digits, with the value of their
    place after ["0"]. *)
Lemma decimal_ascii c :
ascii_digit c -> decimal c = Some (Z.of_N c - 48).
Proof.
unfold ascii_digit, decimal. simpl. intros Hc.
replace (c <? 128)%N with true by (symmetry; apply N.ltb_lt; lia).
replace ((48 <=? c) && (c <=? 57))%N with true; [done|].
symmetry. apply andb_true_iff. rewrite !N.leb_le. lia.
Qed.

Lemma ascii_digit_is_digit c : ascii_digit c -> is_digit c.
Proof. intros Hc. unfold is_digit. simpl. by rewrite (decimal_ascii c Hc). Qed.

Lemma digit_value_ascii c : ascii_digit c -> digit_value c = Z.of_N c - 48.
Proof. intros Hc. unfold digit_value. by rewrite (decimal_ascii c Hc). Qed.

Lemma code_inj a b : code a = code b -> a = b.
Proof.
unfold code. intros H.
rewrite <- (ascii_N_embedding a), <- (ascii_N_embedding b). by rewrite H.
Qed.

Lemma group_matches_dot_free g cap :
excludes_dot g -> group_matches g cap -> dot_free cap.
Proof.
unfold excludes_dot, group_matches, dot_free.
rewrite Forall_forall, Exists_exists. intros Hg (alt & Hin & Hm).
specialize (Hg alt Hin). clear Hin. revert Hg.
induction Hm as [|k c alt cap Hk Hm IH]; intros Hg; [constructor|].
inversion Hg; subst. constructor; [|by apply IH].
intros ->. congruence.
Qed.

Lemma directive_d_excludes_dot : excludes_dot directive_d.
Proof. repeat constructor. Qed.

Lemma directive_m_excludes_dot : excludes_dot directive_m.
Proof. repeat constructor. Qed.

Lemma dot_split d1 : forall d2 t1 t2,
dot_free d1 -> dot_free d2 ->
d1 ++ code "." :: t1 = d2 ++ code "." :: t2 -> d1 = d2 /\ t1 = t2.
Proof.
induction d1 as [|c d1 IH]; intros [|c' d2] t1 t2 H1 H2; simpl.
- by intros [= ->].
- intros [= <- _]. apply Forall_cons in H2 as [H2 _]. done.
- intros [= -> _]. apply Forall_cons in H1 as [H1 _]. done.
- intros [= -> Heq].
  apply Forall_cons in H1 as [_ H1]. apply Forall_cons in H2 as [_ H2].
  destruct (IH _ _ _ H1 H2 Heq) as [-> ->]. done.
Qed.

Lemma literal_matches c cap : group_matches (literal c) cap <-> cap = [code c].
Proof.
unfold group_matches, literal. rewrite Exists_cons, Exists_nil. split.
- intros [H|[]]. inversion H as [|k x ks xs Hk Hks]; subst.
  inversion Hks; subst. apply in_class_Lit in Hk. by subst.
- intros ->. left. repeat constructor. by apply in_class_Lit.
Qed.

Lemma directive_Y_matches cap :
group_matches directive_Y cap <->
exists a b c d, cap = [a; b; c; d] /\ in_class digit a = true /\
  in_class digit b = true /\ in_class digit c = true /\ in_class digit d = true.
Proof.
unfold group_matches, directive_Y. rewrite Exists_cons, Exists_nil. split.
- intros [H|[]].
  repeat match goal with
         | H : matches _ _ |- _ => inversion H; clear H; subst
         | H : Forall2 _ _ _ |- _ => inversion H; clear H; subst
         end.
  eauto 10.
- intros (a & b & c & d & -> & Ha & Hb & Hc & Hd). left. by repeat constructor.
Qed.

(** What the pattern of the format captures. *)
Lemma format_regex_matches caps :
Forall2 group_matches format_regex caps <->
exists d m y, caps = [d; [code "."]; m; [code "."]; y] /\
  group_matches directive_d d /\ group_matches directive_m m /\
  group_matches directive_Y y.
Proof.
unfold format_regex. split.
- intros H.
  repeat match goal with
         | H : Forall2 _ _ _ |- _ => inversion H; clear H; subst
         end.
  repeat match goal with
         | H : group_matches (literal _) _ |- _ => apply literal_matches in H; subst
         end.
  eauto 10.
- intros (d & m & y & -> & Hd & Hm & Hy).
  constructor; [exact Hd|].
  constructor; [by apply literal_matches|].
  constructor; [exact Hm|].
  constructor; [by apply literal_matches|].
  constructor; [exact Hy|]. constructor.
Qed.

Lemma concat_captures (d m y rest : list N) :
concat [d; [code "."]; m; [code "."]; y] ++ rest
= d ++ code "." :: m ++ code "." :: y ++ rest.
Proof.
simpl. rewrite app_nil_r. rewrite <- app_assoc. simpl.
rewrite <- app_assoc. simpl. done.
Qed.

(** The pattern matches a text in at most one way. *)
Lemma format_regex_unambiguous s caps1 rest1 caps2 rest2 :
(caps1, rest1) ∈ match_groups format_regex s ->
(caps2, rest2) ∈ match_groups format_regex s ->
caps1 = caps2 /\ rest1 = rest2.
Proof.
rewrite !match_groups_spec, !format_regex_matches.
intros (-> & d1 & m1 & y1 & -> & Hd1 & Hm1 & Hy1)
       (Heq & d2 & m2 & y2 & -> & Hd2 & Hm2 & Hy2).
rewrite !concat_captures in Heq.
apply dot_split in Heq as [-> Heq];
  [| by eapply group_matches_dot_free; [apply directive_d_excludes_dot|]..].
apply dot_split in Heq as [-> Heq];
  [| by eapply group_matches_dot_free; [apply directive_m_excludes_dot|]..].
apply directive_Y_matches in Hy1 as (a1 & b1 & c1 & e1 & -> & _).
apply directive_Y_matches in Hy2 as (a2 & b2 & c2 & e2 & -> & _).
simpl in Heq. by simplify_eq.
Qed.

Lemma re_match_format_regex s caps rest :
re_match format_regex s = Some (caps, rest) <->
(caps, rest) ∈ match_groups format_regex s.
Proof.
unfold re_match. split.
- intros H. apply head_Some in H as [l' ->]. left.
- intros H. destruct (match_groups format_regex s) as [|[caps' rest'] l] eqn:E.
  + by apply elem_of_nil in H.
  + simpl. f_equal.
    assert ((caps', rest') ∈ match_groups format_regex s) as H'
      by (rewrite E; left).
    rewrite <- E in H.
    destruct (format_regex_unambiguous _ _ _ _ _ H' H) as [-> ->]. done.
Qed.


(** The codes of the characters the directives name, as numbers. *)
Ltac codes :=
repeat match goal with
       | |- context [code (Ascii ?a ?b ?c ?d ?e ?f ?g ?h)] =>
           let v := eval vm_compute in (code (Ascii a b c d e f g h)) in
           change (code (Ascii a b c d e f g h)) with v
       | H : context [code (Ascii ?a ?b ?c ?d ?e ?f ?g ?h)] |- _ =>
           let v := eval vm_compute in (code (Ascii a b c d e f g h)) in
           change (code (Ascii a b c d e f g h)) with v in H
       end.

Ltac class_arith :=
repeat match goal with
       | H : in_class (Range _ _) _ = true |- _ =>
           apply in_class_Range in H
       | H : in_class (Lit _) _ = true |- _ =>
           apply in_class_Lit in H; subst
       | |- in_class (Range _ _) _ = true => apply in_class_Range
       | |- in_class (Lit _) _ = true => apply in_class_Lit
       end.

Ltac invert_matches :=
repeat match goal with
       | H : Exists _ (_ :: _) |- _ => apply Exists_cons in H as [H|H]
       | H : Exists _ [] |- _ => by apply Exists_nil in H
       | H : matches _ _ |- _ => unfold matches in H
       | H : Forall2 _ (_ :: _) _ |- _ => inversion H; clear H; subst
       | H : Forall2 _ [] _ |- _ => inversion H; clear H; subst
       end.

Lemma digit_not_blank a : is_digit a -> (a =? code " ")%N = false.
Proof.
intros H. destruct (N.eqb_spec a (code " ")) as [->|]; [|done].
unfold is_digit in H. simpl in H. discriminate H.
Qed.

Lemma lstrip_digit a s : is_digit a -> lstrip (a :: s) = a :: s.
Proof. intros H. cbn [lstrip]. by rewrite (digit_not_blank a H). Qed.

Lemma int_two a b :
is_digit a -> int [a; b] = 10 * digit_value a + digit_value b.
Proof. intros H. unfold int. rewrite (lstrip_digit a _ H). simpl. lia. Qed.

Lemma int_one b : is_digit b -> int [b] = digit_value b.
Proof. intros H. unfold int. rewrite (lstrip_digit b _ H). simpl. lia. Qed.

Lemma int_blank b : is_digit b -> int [code " "; b] = digit_value b.
Proof.
intros H. unfold int. change (lstrip [code " "; b]) with (lstrip [b]).
rewrite (lstrip_digit b _ H). simpl. lia.
Qed.

Lemma directive_d_sound d : group_matches directive_d d -> day_text d.
Proof.
unfold group_matches, directive_d. intros H. invert_matches; class_arith.
- apply day_two; [unfold ascii_digit; codes; lia
                 | apply ascii_digit_is_digit; unfold ascii_digit; codes; lia
                 | left; unfold ascii_digit; codes; lia].
- apply day_two; [unfold ascii_digit; codes; lia | done | right; codes; lia].
- apply day_two; [unfold ascii_digit; codes; lia
                 | apply ascii_digit_is_digit; unfold ascii_digit; codes; lia
                 | left; unfold ascii_digit; codes; lia].
- apply day_one. unfold ascii_digit; codes; lia.
- apply day_blank. unfold ascii_digit; codes; lia.
Qed.

Lemma directive_m_sound m : group_matches directive_m m -> month_text m.
Proof.
unfold group_matches, directive_m. intros H. invert_matches; class_arith;
  first [apply month_two | apply month_one];
  unfold ascii_digit; codes; lia.
Qed.

Lemma directive_d_complete d :
day_text d -> 1 <= int d <= 31 -> group_matches directive_d d.
Proof.
unfold group_matches, directive_d.
intros [a b Ha Hb Hab|b Hb|b Hb].
- assert ((49 <= a <= 50)%N \/ (ascii_digit b /\ ~ (49 <= a <= 50)%N))
    as [Ha1|[Hb1 Ha1]] by (unfold ascii_digit in *; codes; lia).
  { intros _. apply Exists_cons_tl, Exists_cons_hd.
    repeat constructor; class_arith; [codes; lia | exact Hb]. }
  rewrite (int_two a b (ascii_digit_is_digit a Ha)).
  rewrite (digit_value_ascii a Ha), (digit_value_ascii b Hb1).
  unfold ascii_digit in Ha, Hb1. codes. intros Hr.
  assert ((a = 51 /\ b <= 49) \/ (a = 48 /\ 49 <= b))%N
    as [[Ha2 Hb2]|[Ha2 Hb2]] by lia.
  + apply Exists_cons_hd. repeat constructor; class_arith; codes; lia.
  + do 2 apply Exists_cons_tl. apply Exists_cons_hd.
    repeat constructor; class_arith; codes; lia.
- rewrite (int_one b (ascii_digit_is_digit b Hb)), (digit_value_ascii b Hb).
  unfold ascii_digit in Hb. codes. intros Hr.
  do 3 apply Exists_cons_tl. apply Exists_cons_hd.
  repeat constructor; class_arith; codes; lia.
- rewrite (int_blank b (ascii_digit_is_digit b Hb)), (digit_value_ascii b Hb).
  unfold ascii_digit in Hb. codes. intros Hr.
  do 4 apply Exists_cons_tl. apply Exists_cons_hd.
  repeat constructor; class_arith; codes; lia.
Qed.

Lemma directive_m_complete m :
month_text m -> 1 <= int m <= 12 -> group_matches directive_m m.
Proof.
unfold group_matches, directive_m.
intros [a b Ha Hb|b Hb].
- rewrite (int_two a b (ascii_digit_is_digit a Ha)).
  rewrite (digit_value_ascii a Ha), (digit_value_ascii b Hb).
  unfold ascii_digit in Ha, Hb. codes. intros Hr.
  assert ((a = 49 /\ b <= 50) \/ (a = 48 /\ 49 <= b))%N
    as [[Ha1 Hb1]|[Ha1 Hb1]] by lia.
  + apply Exists_cons_hd. repeat constructor; class_arith; codes; lia.
  + apply Exists_cons_tl, Exists_cons_hd.
    repeat constructor; class_arith; codes; lia.
- rewrite (int_one b (ascii_digit_is_digit b Hb)), (digit_value_ascii b Hb).
  unfold ascii_digit in Hb. codes. intros Hr.
  do 2 apply Exists_cons_tl. apply Exists_cons_hd.
  repeat constructor; class_arith; codes; lia.
Qed.

Lemma directive_Y_year y : group_matches directive_Y y <-> year_text y.
Proof.
rewrite directive_Y_matches. split.
- intros (a & b & c & d & -> & ? & ? & ? & ?). by constructor.
- intros [a b c d ? ? ? ?]. eauto 10.
Qed.

Lemma days_in_month_le y m : days_in_month y m <= 31.
Proof. unfold days_in_month. repeat case_match; lia. Qed.

Lemma date_new_Some y m d dt :
date_new y m d = Some dt ->
dt = mkdate y m d /\ 1 <= m <= 12 /\ 1 <= d <= 31.
Proof.
unfold date_new, check_date_fields. case_match eqn:E; [|done].
intros [= <-]. pose proof (days_in_month_le y m).
rewrite !andb_true_iff, !Z.leb_le in E. split; [done | lia].
Qed.

(** [strptime] read through the spellings. *)
Lemma strptime_Parsed s dt :
strptime s = Parsed dt <->
exists d m y,
  utf8_decode (list_ascii_of_string s) = Some (d ++ code "." :: m ++ code "." :: y) /\
  day_text d /\ month_text m /\ year_text y /\
  date_new (int y) (int m) (int d) = Some dt.
Proof.
unfold strptime. split.
- destruct (utf8_decode (list_ascii_of_string s)) as [text|] eqn:Et; [|done].
  destruct (re_match format_regex text) as [[caps rest]|] eqn:E; [|done].
  destruct rest; [|done].
  apply re_match_format_regex, match_groups_spec in E as [Hs Hcaps].
  apply format_regex_matches in Hcaps as (d & m & y & -> & Hd & Hm & Hy).
  rewrite concat_captures, app_nil_r in Hs.
  destruct (date_new (int y) (int m) (int d)) as [dt'|] eqn:Hdt; [|done].
  intros [= <-]. exists d, m, y.
  split_and!; [by rewrite Hs | by apply directive_d_sound
              | by apply directive_m_sound | by apply directive_Y_year | done].
- intros (d & m & y & -> & Hd & Hm & Hy & Hdt).
  destruct (date_new_Some _ _ _ _ Hdt) as (_ & Hmr & Hdr).
  assert (re_match format_regex (d ++ code "." :: m ++ code "." :: y)
          = Some ([d; [code "."]; m; [code "."]; y], [])) as ->.
  { apply re_match_format_regex, match_groups_spec. split.
    - by rewrite concat_captures, app_nil_r.
    - apply format_regex_matches. exists d, m, y.
      split_and!; [done | by apply directive_d_complete
                  | by apply directive_m_complete | by apply directive_Y_year]. }
  by rewrite Hdt.
Qed.

(** C4 (amended): [_parse_ddmmyyyy] returns a date exactly for the texts
  day, dot, month, dot, year -- the day written with two digits, with
  one digit or with a blank and one digit, the month with two digits or
  with one, the year with four digits; the digits are those of ASCII,
  but the second digit of a day that begins with 1 or 2 and the digits
  of the year may be decimal digits of any script -- whose numbers are
  a calendar date (the one [date(year, month, day)] builds), and that
  date is the result; for every other text and for an absent one the
  result is [None].  The function is total: no input makes it raise.
  ["01.03.2024"] gives 1 March 2024; ["31.02.2024"], ["not-a-date"] and
  an absent text give [None]. *)
Theorem parse_ddmmyyyy_accepts :
(forall (s : option string) (dt : date),
    _parse_ddmmyyyy s = Some dt <->
    exists txt d m y,
      s = Some txt /\
      utf8_decode (list_ascii_of_string txt)
      = Some (d ++ code "." :: m ++ code "." :: y) /\
      day_text d /\ month_text m /\ year_text y /\
      date_new (int y) (int m) (int d) = Some dt) /\
_parse_ddmmyyyy (Some "01.03.2024") = Some (mkdate 2024 3 1) /\
_parse_ddmmyyyy (Some "31.02.2024") = None /\
_parse_ddmmyyyy (Some "not-a-date") = None /\
_parse_ddmmyyyy None = None.
Proof.
split; [|by repeat split].
intros [txt|] dt; simpl.
- destruct (String.eqb_spec txt "") as [->|Hne].
  + split; [done|]. intros (txt & d & m & y & [= <-] & H & _).
    simpl in H. destruct d; discriminate H.
  + split.
    * destruct (strptime txt) as [dt'|msg] eqn:E; [|done].
      intros [= <-]. apply strptime_Parsed in E as (d & m & y & H).
      by exists txt, d, m, y.
    * intros (txt' & d & m & y & [= <-] & H).
      assert (strptime txt = Parsed dt) as -> by (apply strptime_Parsed; eauto).
      done.
- split; [done|]. by intros (txt & d & m & y & [=] & _).
Qed.

(** ** Tables *)

Section Tables.
Context {R : Type} (P : R -> Prop) `{!forall r, Decision (P r)} (set : R -> R).

Lemma update_where_length t : length (update_where P set t) = length t.
Proof. unfold update_where. by rewrite length_fmap. Qed.

Lemma update_where_miss t : filter P t = [] -> update_where P set t = t.
Proof.
  unfold update_where. induction t as [|r t IH]; [done|].
  rewrite filter_cons, fmap_cons. destruct (decide (P r)); [done|].
  intros Hf. by rewrite IH.
Qed.

Lemma update_where_pointwise t :
  Forall2 (fun old new => new = if decide (P old) then set old else old)
          t (update_where P set t).
Proof. unfold update_where. induction t; [constructor|]. rewrite fmap_cons. by constructor. Qed.

(** Rows at the key after the update, when the update keeps the key. *)
Lemma update_where_hit t :
  (forall r, P (set r) <-> P r) ->
  filter P (update_where P set t) = set <$> filter P t.
Proof.
  intros Hset. unfold update_where. induction t as [|r t IH]; [done|].
  rewrite fmap_cons, !filter_cons. destruct (decide (P r)) as [Hr|Hr].
  - rewrite decide_True by by apply Hset. by rewrite fmap_cons, IH.
  - rewrite decide_False by done. done.
Qed.

(** Rows the update does not reach. *)
Lemma update_where_other (Q : R -> Prop) `{!forall r, Decision (Q r)} t :
  (forall r, Q r -> ~ P r) -> (forall r, P r -> ~ Q (set r)) ->
  filter Q (update_where P set t) = filter Q t.
Proof.
  intros HQ HP. unfold update_where. induction t as [|r t IH]; [done|].
  rewrite fmap_cons, !filter_cons. destruct (decide (P r)) as [Hr|Hr].
  - rewrite decide_False by by apply HP.
    rewrite decide_False by (intros Hq; by apply (HQ r)). done.
  - destruct (decide (Q r)); by rewrite IH.
Qed.
End Tables.

Lemma store_eta db : mkStore (checklist_items db) (caps db) (cap_steps db) = db.
Proof. by destruct db. Qed.

(** ** Driver calls without faults *)

Section Healthy.
Context (env : Env) (Henv : healthy env).

Lemma cursor_healthy c :
  cursor env c
  = (Ok tt, mkConn (committed c) (working c) (S (calls c)) (trace c ++ [Cursor])
                 (in_transaction c) true).
Proof. unfold cursor, driver_call. by rewrite (proj2 Henv). Qed.

Lemma execute_healthy q c :
  execute env q c
  = (Ok (run_statement (clock env) q (working c)).2,
     mkConn (committed c) (run_statement (clock env) q (working c)).1
            (S (calls c)) (trace c ++ [Execute q]) true (cur_bound c)).
Proof.
  unfold execute, driver_call. rewrite (proj2 Henv). simpl.
  by destruct (run_statement (clock env) q (working c)).
Qed.

Lemma commit_healthy c :
  commit env c
  = (Ok tt, mkConn (working c) (working c) (S (calls c)) (trace c ++ [Commit])
                 false (cur_bound c)).
Proof. unfold commit, driver_call. by rewrite (proj2 Henv). Qed.

Lemma get_conn_healthy {A} (body : M A) db : get_conn env body db = body (fresh db).
Proof. unfold get_conn. by rewrite (proj1 Henv). Qed.

End Healthy.

Ltac run_healthy Henv :=
  rewrite ?(get_conn_healthy _ Henv);
  unfold try_finally, try_except, bind, ret, raise, rollback, cursor_close, put_conn, fresh;
  repeat first [ rewrite (cursor_healthy _ Henv)
               | rewrite (execute_healthy _ Henv)
               | rewrite (commit_healthy _ Henv)
               | progress simpl ].

(** ** Item updates *)

Lemma update_operator_healthy env cid num body db :
  healthy env ->
  update_operator env cid num body db
  = match items_of cid num db with
    | [] => (Raise not_found,
             mkConn db db 2
               [Cursor;
                Execute (match OperatorUpdate.evidence_path body with
                         | Some p => UPDATE_items_operator_evidence
                                       (OperatorUpdate.status body) p
                                       (OperatorUpdate.feedback body) cid num
                         | None => UPDATE_items_operator
                                     (OperatorUpdate.status body)
                                     (OperatorUpdate.feedback body) cid num
                         end);
                CursorClose; PutConn;
                if pool_keeps env then Rollback else Close]
               false true)
    | _ :: _ =>
        let db' :=
          mkStore
            (update_where (Item.at_key cid num)
               (match OperatorUpdate.evidence_path body with
                | Some p => set_operator_evidence (OperatorUpdate.status body) p
                              (OperatorUpdate.feedback body)
                | None => set_operator (OperatorUpdate.status body)
                            (OperatorUpdate.feedback body)
                end) (checklist_items db))
            (caps db) (cap_steps db) in
        (Ok ok_true,
         mkConn db' db' 3
           [Cursor;
            Execute (match OperatorUpdate.evidence_path body with
                     | Some p => UPDATE_items_operator_evidence
                                   (OperatorUpdate.status body) p
                                   (OperatorUpdate.feedback body) cid num
                     | None => UPDATE_items_operator
                                 (OperatorUpdate.status body)
                                 (OperatorUpdate.feedback body) cid num
                     end);
            Commit; CursorClose; PutConn]
           false true)
    end.
Proof.
  intros Henv. unfold update_operator, items_of, not_found.
  destruct (OperatorUpdate.evidence_path body) as [p|];
    run_healthy Henv;
    destruct (filter (Item.at_key cid num) (checklist_items db)) eqn:E; simpl;
    run_healthy Henv; done.
Qed.

Lemma update_inspector_healthy env cid num body db :
  healthy env ->
  update_inspector env cid num body db
  = let q := UPDATE_items_inspector (InspectorUpdate.acceptance body)
               (InspectorUpdate.feedback body) cid num in
    match items_of cid num db with
    | [] => (Raise not_found,
             mkConn db db 2
               [Cursor; Execute q; CursorClose; PutConn;
                if pool_keeps env then Rollback else Close]
               false true)
    | _ :: _ =>
        let db' :=
          mkStore
            (update_where (Item.at_key cid num)
               (set_inspector (InspectorUpdate.acceptance body)
                  (InspectorUpdate.feedback body)) (checklist_items db))
            (caps db) (cap_steps db) in
        (Ok ok_true,
         mkConn db' db' 3 [Cursor; Execute q; Commit; CursorClose; PutConn]
                false true)
    end.
Proof.
  intros Henv. unfold update_inspector, items_of, not_found.
  run_healthy Henv.
  destruct (filter (Item.at_key cid num) (checklist_items db)) eqn:E; simpl;
    run_healthy Henv; done.
Qed.

(** C2: on an item that exists, [update_operator] answers ok and commits;
    every row at the key has [status] and [operator_feedback] overwritten
    with the values of the request, [evidence] overwritten when the
    request carries [evidence_path] and left as stored when it does not,
    and its other columns (key, reference, question, acceptance,
    inspector_feedback) as they were; the rows at other keys and the
    other tables are unchanged. *)
Theorem update_operator_partial env cid num body db :
  healthy env ->
  items_of cid num db <> [] ->
  let out := update_operator env cid num body db in
  out.1 = Ok ok_true /\
  working out.2 = committed out.2 /\
  caps (committed out.2) = caps db /\
  cap_steps (committed out.2) = cap_steps db /\
  Forall2 (fun old new =>
             if decide (Item.at_key cid num old)
             then operator_updated body old new
             else new = old)
          (checklist_items db) (checklist_items (committed out.2)).
Proof.
  intros Henv Hex. simpl. rewrite (update_operator_healthy _ _ _ _ _ Henv).
  destruct (items_of cid num db) as [|r0 rs]; [done|]. simpl.
  split_and!; try done.
  eapply Forall2_impl; [apply update_where_pointwise|].
  intros old new ->. simpl.
  destruct (decide (Item.at_key cid num old)); [|done].
  unfold operator_updated.
  by destruct (OperatorUpdate.evidence_path body).
Qed.

(** C8: on an item that exists, [update_inspector] answers ok and
    commits; every row at the key has [acceptance] and
    [inspector_feedback] set to what the request carries, NULL for a
    field the request leaves out, whatever was stored; the other columns,
    the other rows and the other tables are unchanged. *)
Theorem update_inspector_overwrites env cid num body db :
  healthy env ->
  items_of cid num db <> [] ->
  let out := update_inspector env cid num body db in
  out.1 = Ok ok_true /\
  working out.2 = committed out.2 /\
  caps (committed out.2) = caps db /\
  cap_steps (committed out.2) = cap_steps db /\
  Forall2 (fun old new =>
             if decide (Item.at_key cid num old)
             then inspector_updated body old new
             else new = old)
          (checklist_items db) (checklist_items (committed out.2)).
Proof.
  intros Henv Hex. simpl. rewrite (update_inspector_healthy _ _ _ _ _ Henv).
  destruct (items_of cid num db) as [|r0 rs]; [done|]. simpl.
  split_and!; try done.
  eapply Forall2_impl; [apply update_where_pointwise|].
  intros old new ->. simpl.
  destruct (decide (Item.at_key cid num old)); done.
Qed.

(** ** More on tables *)

Section Filters.
Context {R : Type} (P : R -> Prop) `{!forall r, Decision (P r)}.

Lemma filter_all (l : list R) : Forall P l -> filter P l = l.
Proof.
  induction 1 as [|r l Hr _ IH]; [done|].
  by rewrite filter_cons_True, IH.
Qed.

Lemma filter_none (l : list R) : Forall (fun r => ~ P r) l -> filter P l = [].
Proof.
  induction 1 as [|r l Hr _ IH]; [done|].
  by rewrite filter_cons_False.
Qed.

End Filters.

Section Complement.
Context {R : Type} (P : R -> Prop) `{!forall r, Decision (P r)}.

Lemma filter_of_complement (l : list R) : filter P (filter (fun r => ~ P r) l) = [].
Proof.
  apply filter_none, Forall_forall. intros r Hr.
  by apply list_elem_of_filter in Hr as [Hr _].
Qed.

Lemma filter_complement_twice (l : list R) :
  filter (fun r => ~ P r) (filter (fun r => ~ P r) l) = filter (fun r => ~ P r) l.
Proof.
  apply filter_all, Forall_forall. intros r Hr.
  by apply list_elem_of_filter in Hr as [Hr _].
Qed.
End Complement.

(** ** The CAP header *)

Lemma upsert_cap_healthy env cid num body db :
  healthy env ->
  upsert_cap env cid num body db
  = let td := _parse_ddmmyyyy (CapUpsert.target_date body) in
    let upd := UPDATE_caps (CapUpsert.description body) (CapUpsert.owner body) td cid num in
    let ins := INSERT_caps cid num (CapUpsert.description body) (CapUpsert.owner body) td in
    match caps_of cid num db with
    | [] =>
        let db' :=
          mkStore (checklist_items db)
            (caps db ++ [Cap.mk cid num (Some (CapUpsert.description body))
                           (CapUpsert.owner body) td
                           (caps_updated_at_default (clock env))])
            (cap_steps db) in
        (Ok ok_true,
         mkConn db' db' 4 [Cursor; Execute upd; Execute ins; Commit; CursorClose; PutConn]
                false true)
    | _ :: _ =>
        let db' :=
          mkStore (checklist_items db)
            (update_where (Cap.at_key cid num)
               (set_cap (clock env) (CapUpsert.description body)
                  (CapUpsert.owner body) td) (caps db))
            (cap_steps db) in
        (Ok ok_true,
         mkConn db' db' 3 [Cursor; Execute upd; Commit; CursorClose; PutConn]
                false true)
    end.
Proof.
  intros Henv. unfold upsert_cap, caps_of.
  run_healthy Henv.
  destruct (filter (Cap.at_key cid num) (caps db)) eqn:E; simpl;
    run_healthy Henv; try done.
  by rewrite (update_where_miss _ _ _ E).
Qed.

Lemma set_cap_keeps_key clk descr own td cid num r :
  Cap.at_key cid num (set_cap clk descr own td r) <-> Cap.at_key cid num r.
Proof. done. Qed.

Lemma caps_of_other_key cid num cid' num' r :
  (cid', num') <> (cid, num) -> Cap.at_key cid' num' r -> ~ Cap.at_key cid num r.
Proof. intros Hne [<- <-] [<- <-]. done. Qed.

(** C3: with at most one row for the key before, [upsert_cap] runs the
    UPDATE first and the INSERT exactly when the UPDATE reached no row, and
    one row is at the key afterwards in both cases.  On the insert path
    the new row is appended with the values of the request and
    [updated_at] left to the table's default; on the update path the row
    carries the values of the request and [updated_at] is the server's
    current timestamp, and no row is added.  The rows of other keys stay
    as they were. *)
Theorem upsert_cap_update_then_insert env cid num body db :
  healthy env ->
  (length (caps_of cid num db) <= 1)%nat ->
  let out := upsert_cap env cid num body db in
  let td := _parse_ddmmyyyy (CapUpsert.target_date body) in
  let upd := UPDATE_caps (CapUpsert.description body) (CapUpsert.owner body) td cid num in
  let ins := INSERT_caps cid num (CapUpsert.description body) (CapUpsert.owner body) td in
  out.1 = Ok ok_true /\
  working out.2 = committed out.2 /\
  length (caps_of cid num (committed out.2)) = 1%nat /\
  (caps_of cid num db = [] ->
     trace out.2 = [Cursor; Execute upd; Execute ins; Commit; CursorClose; PutConn] /\
     caps (committed out.2)
     = caps db ++ [Cap.mk cid num (Some (CapUpsert.description body))
                     (CapUpsert.owner body) td
                     (caps_updated_at_default (clock env))]) /\
  (caps_of cid num db <> [] ->
     trace out.2 = [Cursor; Execute upd; Commit; CursorClose; PutConn] /\
     length (caps (committed out.2)) = length (caps db) /\
     caps_of cid num (committed out.2)
     = [Cap.mk cid num (Some (CapUpsert.description body))
          (CapUpsert.owner body) td
          (Some (current_timestamp (clock env)))]) /\
  (forall cid' num', (cid', num') <> (cid, num) ->
     caps_of cid' num' (committed out.2) = caps_of cid' num' db).
Proof.
  intros Henv Hone. simpl. rewrite (upsert_cap_healthy _ _ _ _ _ Henv).
  destruct (caps_of cid num db) as [|r0 rs] eqn:E; simpl.
  - split_and!; try done.
    + unfold caps_of in *. simpl. rewrite filter_app, E. simpl.
      by rewrite filter_cons_True.
    + intros cid' num' Hne. unfold caps_of. simpl. rewrite filter_app.
      rewrite (filter_cons_False _ (Cap.mk _ _ _ _ _ _)).
      * by rewrite app_nil_r.
      * intros [? ?]; simpl in *. by subst.
  - destruct rs as [|r1 rs]; [|simpl in Hone; lia].
    assert (Cap.at_key cid num r0) as [Hc Hn].
    { assert (r0 ∈ caps_of cid num db) as Hin by (rewrite E; left).
      by apply list_elem_of_filter in Hin as [Hin _]. }
    assert (caps_of cid num
              (mkStore (checklist_items db)
                 (update_where (Cap.at_key cid num)
                    (set_cap (clock env) (CapUpsert.description body)
                       (CapUpsert.owner body)
                       (_parse_ddmmyyyy (CapUpsert.target_date body))) (caps db))
                 (cap_steps db))
            = [Cap.mk cid num (Some (CapUpsert.description body))
                 (CapUpsert.owner body)
                 (_parse_ddmmyyyy (CapUpsert.target_date body))
                 (Some (current_timestamp (clock env)))]) as Hrows.
    { unfold caps_of in *. simpl.
      rewrite update_where_hit by (intros r; apply set_cap_keeps_key).
      rewrite E. simpl. unfold set_cap. by rewrite Hc, Hn. }
    split_and!; try done.
    + by rewrite Hrows.
    + intros _. split_and!; [done | apply update_where_length | done].
    + intros cid' num' Hne. unfold caps_of. simpl.
      apply update_where_other.
      * intros r. by apply caps_of_other_key.
      * intros r Hr Hq. apply set_cap_keeps_key in Hq.
        by apply (caps_of_other_key cid num cid' num' r).
Qed.

(** C10 (amended): when [upsert_cap] succeeds, a row is at the key and
    every row at the key holds the description, the owner and the parsed
    target date of the request, whatever was stored before; so a request
    without owner stores NULL as owner, and a request whose date is
    absent or not accepted by the parser stores NULL as target date.  A
    date text the parser accepts is stored as the date it reads, also
    when the text is not of the form DD.MM.YYYY. *)
Theorem upsert_cap_writes_all_fields env cid num body db :
  healthy env ->
  let out := upsert_cap env cid num body db in
  let rows := caps_of cid num (committed out.2) in
  out.1 = Ok ok_true /\
  rows <> [] /\
  Forall (fun r =>
            Cap.description r = Some (CapUpsert.description body) /\
            Cap.owner r = CapUpsert.owner body /\
            Cap.target_date r = _parse_ddmmyyyy (CapUpsert.target_date body)) rows /\
  (CapUpsert.owner body = None -> Forall (fun r => Cap.owner r = None) rows) /\
  (_parse_ddmmyyyy (CapUpsert.target_date body) = None ->
     Forall (fun r => Cap.target_date r = None) rows) /\
  _parse_ddmmyyyy None = None.
Proof.
  intros Henv. simpl.
  assert (let out := upsert_cap env cid num body db in
          out.1 = Ok ok_true /\
          caps_of cid num (committed out.2) <> [] /\
          Forall (fun r =>
            Cap.description r = Some (CapUpsert.description body) /\
            Cap.owner r = CapUpsert.owner body /\
            Cap.target_date r = _parse_ddmmyyyy (CapUpsert.target_date body))
            (caps_of cid num (committed out.2))) as (Hok & Hne & Hall).
  { simpl. rewrite (upsert_cap_healthy _ _ _ _ _ Henv).
    destruct (caps_of cid num db) as [|r0 rs] eqn:E; simpl.
    - unfold caps_of in *. simpl. rewrite filter_app, E. simpl.
      rewrite filter_cons_True by done. split_and!; [done | done |].
      by repeat constructor.
    - unfold caps_of in *. simpl.
      rewrite update_where_hit by (intros r; apply set_cap_keeps_key).
      rewrite E. split_and!; [done | done |].
      apply Forall_fmap, Forall_forall. by intros r _. }
  split_and!; try done.
  - intros Ho. eapply Forall_impl; [exact Hall|]. intros r (_ & -> & _). done.
  - intros Hd. eapply Forall_impl; [exact Hall|]. intros r (_ & _ & ->). done.
Qed.

(** ** The CAP steps *)

Lemma enumerate_cons {A} (start : Z) (x : A) (l : list A) :
  enumerate start (x :: l) = (start, x) :: enumerate (start + 1) l.
Proof.
  unfold enumerate. rewrite imap_cons. f_equal.
  - f_equal. lia.
  - apply imap_ext. intros i y _. simpl. f_equal. lia.
Qed.

Lemma inserted_renumbered cid num l : inserted cid num 1 l = renumbered cid num l.
Proof. unfold inserted, renumbered, enumerate. by rewrite fmap_imap. Qed.

Lemma inserted_at_key cid num start l :
  Forall (Step.at_key cid num) (inserted cid num start l).
Proof.
  unfold inserted. apply Forall_fmap, Forall_forall. by intros [idx s] _.
Qed.

Lemma renumbered_at_key cid num l :
  filter (Step.at_key cid num) (renumbered cid num l) = renumbered cid num l.
Proof. apply filter_all. rewrite <- inserted_renumbered. apply inserted_at_key. Qed.

Lemma renumbered_off_key cid num l :
  filter (fun r => ~ Step.at_key cid num r) (renumbered cid num l) = [].
Proof.
  apply filter_none. rewrite <- inserted_renumbered.
  eapply Forall_impl; [apply inserted_at_key|]. intros r Hr Hn. by apply Hn.
Qed.

Lemma insert_loop_healthy env cid num :
  healthy env ->
  forall l start c,
    in_transaction c = true ->
    for_each
      (fun '(idx, s) =>
         bind (execute env
                 (INSERT_cap_steps cid num idx (CapStep.step_text s)
                    (_parse_ddmmyyyy (CapStep.target_date s))))
              (fun _ => ret tt))
      (enumerate start l) c
    = (Ok tt,
       mkConn (committed c)
         (mkStore (checklist_items (working c)) (caps (working c))
            (cap_steps (working c) ++ inserted cid num start l))
         (calls c + length l)
         (trace c ++ ((fun r => Execute (INSERT_cap_steps cid num (Step.step_no r)
                                           (default "" (Step.step_text r))
                                           (Step.target_date r)))
                        <$> inserted cid num start l))
         true (cur_bound c)).
Proof.
  intros Henv. induction l as [|s l IH]; intros start c Hc.
  - unfold inserted, enumerate. simpl. unfold ret.
    rewrite !app_nil_r, Nat.add_0_r, store_eta, <- Hc. by destruct c.
  - unfold inserted. rewrite enumerate_cons, !fmap_cons.
    cbn [for_each]. unfold bind at 1. unfold bind at 1.
    rewrite (execute_healthy _ Henv). unfold ret at 1. rewrite IH by reflexivity.
    unfold inserted.
    cbn [committed working calls trace in_transaction cur_bound
         checklist_items caps cap_steps run_statement fst snd Step.step_no Step.step_text Step.target_date default].
    rewrite <- !app_assoc. do 2 f_equal. simpl. lia.
Qed.

Lemma replace_cap_steps_healthy env cid num body db :
  healthy env ->
  let out := replace_cap_steps env cid num body db in
  out.1 = Ok (ok_count (length (CapStepsReplace.steps body))) /\
  working out.2 = committed out.2 /\
  committed out.2
  = mkStore (checklist_items db) (caps db)
      (filter (fun r => ~ Step.at_key cid num r) (cap_steps db)
       ++ renumbered cid num (CapStepsReplace.steps body)).
Proof.
  intros Henv.
  assert (exists n tr,
            replace_cap_steps env cid num body db
            = (Ok (ok_count (length (CapStepsReplace.steps body))),
               let db' :=
                 mkStore (checklist_items db) (caps db)
                   (filter (fun r => ~ Step.at_key cid num r) (cap_steps db)
                    ++ inserted cid num 1 (CapStepsReplace.steps body)) in
               mkConn db' db' n tr false true)) as (n & tr & ->).
  { unfold replace_cap_steps. rewrite (get_conn_healthy _ Henv).
    unfold try_finally, try_except.
    unfold bind at 1. rewrite (cursor_healthy _ Henv).
    unfold bind at 1. rewrite (execute_healthy _ Henv).
    unfold bind at 1. rewrite (insert_loop_healthy _ _ _ Henv) by reflexivity.
    unfold bind at 1. rewrite (commit_healthy _ Henv).
    eexists _, _. reflexivity. }
  rewrite <- inserted_renumbered. by split_and!.
Qed.

(** C1: [replace_cap_steps] answers with the length of the list it was
    given and commits; afterwards the rows at the key are, in order,
    those of the list, the i-th (from one) with [step_no] i, the text of
    the item and its parsed date -- the [step_no] of the items plays no
    part, so two lists that differ only there leave the same store -- and
    the rows at other keys and the other tables are as before.  An empty
    list leaves no row at the key. *)
Theorem replace_cap_steps_renumbers env cid num body db :
  healthy env ->
  let out := replace_cap_steps env cid num body db in
  let after := committed out.2 in
  out.1 = Ok (ok_count (length (CapStepsReplace.steps body))) /\
  working out.2 = after /\
  steps_of cid num after = renumbered cid num (CapStepsReplace.steps body) /\
  length (steps_of cid num after) = length (CapStepsReplace.steps body) /\
  (forall (i : nat) s,
     CapStepsReplace.steps body !! i = Some s ->
     steps_of cid num after !! i
     = Some (Step.mk cid num (Z.of_nat i + 1) (Some (CapStep.step_text s))
               (_parse_ddmmyyyy (CapStep.target_date s)))) /\
  filter (fun r => ~ Step.at_key cid num r) (cap_steps after)
  = filter (fun r => ~ Step.at_key cid num r) (cap_steps db) /\
  checklist_items after = checklist_items db /\
  caps after = caps db /\
  (forall body',
     (fun s => (CapStep.step_text s, CapStep.target_date s)) <$> CapStepsReplace.steps body'
     = (fun s => (CapStep.step_text s, CapStep.target_date s)) <$> CapStepsReplace.steps body ->
     committed (replace_cap_steps env cid num body' db).2 = after) /\
  (CapStepsReplace.steps body = [] -> steps_of cid num after = []).
Proof.
  intros Henv. simpl.
  destruct (replace_cap_steps_healthy env cid num body db Henv) as (Hr & Hw & Hc).
  assert (steps_of cid num (committed (replace_cap_steps env cid num body db).2)
          = renumbered cid num (CapStepsReplace.steps body)) as Hsteps.
  { rewrite Hc. unfold steps_of. simpl.
    by rewrite filter_app, filter_of_complement, renumbered_at_key. }
  split_and!; try done.
  - rewrite Hsteps. unfold renumbered. apply length_imap.
  - intros i s Hi. rewrite Hsteps. unfold renumbered.
    rewrite list_lookup_imap, Hi. simpl. do 2 f_equal. lia.
  - rewrite Hc. simpl.
    by rewrite filter_app, filter_complement_twice, renumbered_off_key, app_nil_r.
  - by rewrite Hc.
  - by rewrite Hc.
  - intros body' Heq.
    destruct (replace_cap_steps_healthy env cid num body' db Henv) as (_ & _ & ->).
    rewrite Hc. do 2 f_equal. unfold renumbered.
    assert (forall l l' : list CapStep.t,
              (fun s => (CapStep.step_text s, CapStep.target_date s)) <$> l'
              = (fun s => (CapStep.step_text s, CapStep.target_date s)) <$> l ->
              forall f : nat -> string -> option string -> Step.row,
                imap (fun i s => f i (CapStep.step_text s) (CapStep.target_date s)) l'
                = imap (fun i s => f i (CapStep.step_text s) (CapStep.target_date s)) l)
      as Himap.
    { clear. induction l as [|x l IH]; intros [|x' l'] H f; try done.
      rewrite !fmap_cons in H. injection H as Ht Hd Hl.
      rewrite !imap_cons. rewrite Ht, Hd. f_equal.
      apply (IH l' Hl (fun i => f (S i))). }
    apply (Himap _ _ Heq
             (fun i t d => Step.mk cid num (1 + Z.of_nat i) (Some t) (_parse_ddmmyyyy d))).
  - intros Hnil. rewrite Hsteps, Hnil. done.
Qed.

(** C9: two calls of [replace_cap_steps] in a row with the same list
    leave the same store, the rows at the key numbered from one in the
    order of the list, and both answer with the length of the list. *)
Theorem replace_cap_steps_idempotent env1 env2 cid num body db :
  healthy env1 ->
  healthy env2 ->
  let first := replace_cap_steps env1 cid num body db in
  let second := replace_cap_steps env2 cid num body (committed first.2) in
  first.1 = Ok (ok_count (length (CapStepsReplace.steps body))) /\
  second.1 = Ok (ok_count (length (CapStepsReplace.steps body))) /\
  committed second.2 = committed first.2 /\
  steps_of cid num (committed first.2) = renumbered cid num (CapStepsReplace.steps body) /\
  steps_of cid num (committed second.2) = renumbered cid num (CapStepsReplace.steps body).
Proof.
  intros H1 H2. simpl.
  destruct (replace_cap_steps_healthy env1 cid num body db H1) as (Hr1 & _ & Hc1).
  destruct (replace_cap_steps_healthy env2 cid num body
              (committed (replace_cap_steps env1 cid num body db).2) H2)
    as (Hr2 & _ & Hc2).
  assert (committed (replace_cap_steps env2 cid num body
                       (committed (replace_cap_steps env1 cid num body db).2)).2
          = committed (replace_cap_steps env1 cid num body db).2) as Hsame.
  { rewrite Hc2, Hc1. simpl. do 2 f_equal.
    by rewrite filter_app, filter_complement_twice, renumbered_off_key, app_nil_r. }
  assert (steps_of cid num (committed (replace_cap_steps env1 cid num body db).2)
          = renumbered cid num (CapStepsReplace.steps body)) as Hsteps.
  { rewrite Hc1. unfold steps_of. simpl.
    by rewrite filter_app, filter_of_complement, renumbered_at_key. }
  split_and!; try done. by rewrite Hsame.
Qed.

(** ** The final date *)

Lemma date_leb_spec a b :
  date_leb a b = true <->
  year a < year b \/
  (year a = year b /\ (month a < month b \/ (month a = month b /\ day a <= day b))).
Proof.
  unfold date_leb.
  rewrite !orb_true_iff, !andb_true_iff, !orb_true_iff, !andb_true_iff.
  rewrite !Z.ltb_lt, !Z.eqb_eq, Z.leb_le. done.
Qed.

Lemma date_le_refl a : date_le a a.
Proof. apply date_leb_spec. lia. Qed.

Lemma date_le_trans a b c : date_le a b -> date_le b c -> date_le a c.
Proof. unfold date_le. rewrite !date_leb_spec. lia. Qed.

Lemma date_le_total a b : date_leb a b = false -> date_le b a.
Proof.
  intros H. apply date_leb_spec.
  destruct (date_leb a b) eqn:E; [done|].
  assert (~ (year a < year b \/
             (year a = year b /\
              (month a < month b \/ (month a = month b /\ day a <= day b))))) as Hn.
  { intros Hc. apply date_leb_spec in Hc. congruence. }
  lia.
Qed.

(** The running maximum is the seed or one of the dates, and bounds
    both. *)
Lemma fold_later_spec ds : forall acc,
  match fold_left later ds acc with
  | None => acc = None /\ Forall (fun d => d = None) ds
  | Some m =>
      (acc = Some m \/ Some m ∈ ds) /\
      (forall a, acc = Some a -> date_le a m) /\
      (forall d, Some d ∈ ds -> date_le d m)
  end.
Proof.
  induction ds as [|d ds IH]; intros acc; simpl.
  - destruct acc as [a|].
    + split_and!; [by left | by intros ? [= ->]; apply date_le_refl |].
      intros d Hd. by apply elem_of_nil in Hd.
    + done.
  - specialize (IH (later acc d)).
    destruct (fold_left later ds (later acc d)) as [m|].
    + destruct IH as (Hm & Hacc & Hds).
      assert (forall a, acc = Some a -> date_le a m) as Hacc'.
      { intros a ->. destruct d as [x|]; simpl in *; [|by apply Hacc].
        destruct (date_leb a x) eqn:E.
        - eapply date_le_trans; [exact E | by apply Hacc].
        - by apply Hacc. }
      assert (forall x, d = Some x -> date_le x m) as Hd'.
      { intros x ->. destruct acc as [a|]; simpl in *; [|by apply Hacc].
        destruct (date_leb a x) eqn:E.
        - by apply Hacc.
        - eapply date_le_trans; [by apply date_le_total | by apply Hacc]. }
      split_and!; [| done |].
      * destruct Hm as [Hm|Hm]; [|by right; right].
        destruct d as [x|]; [|by left].
        destruct acc as [a|]; simpl in Hm.
        -- destruct (date_leb a x); [|by left].
           right. rewrite <- Hm. left.
        -- right. rewrite <- Hm. left.
      * intros x Hx. apply elem_of_cons in Hx as [<-|Hx]; [by apply Hd' | by apply Hds].
    + destruct IH as (Hl & Hall).
      destruct d as [x|], acc as [a|]; simpl in Hl; try done.
      * by destruct (date_leb a x).
      * split; [done | by constructor].
Qed.

Lemma sql_max_spec ds :
  match sql_max ds with
  | None => Forall (fun d => d = None) ds
  | Some m => Some m ∈ ds /\ forall d, Some d ∈ ds -> date_le d m
  end.
Proof.
  unfold sql_max. pose proof (fold_later_spec ds None) as H.
  destruct (fold_left later ds None) as [m|].
  - destruct H as ([?|?] & _ & ?); done.
  - by destruct H.
Qed.

Lemma compute_cap_final_date_healthy env cid num db :
  healthy env ->
  compute_cap_final_date env cid num db
  = (Ok (final_date (isoformat <$> max_target_date cid num db)),
     mkConn db db 2
       [Cursor; Execute (SELECT_max_target_date cid num); CursorClose; PutConn;
        if pool_keeps env then Rollback else Close]
       false true).
Proof.
  intros Henv. unfold compute_cap_final_date, fetchone_max.
  run_healthy Henv. by destruct (max_target_date cid num db).
Qed.

(** C5: [compute_cap_final_date] answers, without an error and without
    a write, with the latest [target_date] among the rows of [cap_steps]
    at the key -- a date one of them carries, no earlier than any date
    carried there, rows without a date taking no part -- in ISO form; and
    with no date when no row is at the key or none of them carries a
    date. *)
Theorem compute_cap_final_date_is_max env cid num db :
  healthy env ->
  let out := compute_cap_final_date env cid num db in
  let dates := Step.target_date <$> steps_of cid num db in
  committed out.2 = db /\
  working out.2 = db /\
  ((Forall (fun d => d = None) dates /\ out.1 = Ok (final_date None)) \/
   (exists m,
      Some m ∈ dates /\
      (forall d, Some d ∈ dates -> date_le d m) /\
      out.1 = Ok (final_date (Some (isoformat m))))) /\
  (steps_of cid num db = [] -> out.1 = Ok (final_date None)).
Proof.
  intros Henv. simpl. rewrite (compute_cap_final_date_healthy _ _ _ _ Henv). simpl.
  unfold max_target_date. fold (steps_of cid num db).
  pose proof (sql_max_spec (Step.target_date <$> steps_of cid num db)) as H.
  split_and!; [done | done | |].
  - destruct (sql_max (Step.target_date <$> steps_of cid num db)) as [m|].
    + right. exists m. by destruct H.
    + by left.
  - intros ->. done.
Qed.

Example final_date_of_three :
  (compute_cap_final_date (quiet (mkClock 0 None)) 7 3
     (mkStore [] []
        [Step.mk 7 3 1 (Some "a") (_parse_ddmmyyyy (Some "05.01.2024"));
         Step.mk 7 3 2 (Some "b") None;
         Step.mk 7 3 3 (Some "c") (_parse_ddmmyyyy (Some "20.01.2024"))])).1
  = Ok (final_date (Some "2024-01-20")).
Proof. reflexivity. Qed.

(** ** Errors *)

Ltac run_any :=
  unfold get_conn, try_finally, try_except, bind, cursor, execute, commit,
    driver_call, ret, raise, rollback, cursor_close, put_conn, fresh.

Lemma update_operator_miss env cid num body db :
  items_of cid num db = [] ->
  let out := update_operator env cid num body db in
  committed out.2 = db /\ working out.2 = db /\
  (exists e, out.1 = Raise e) /\
  (healthy env -> out.1 = Raise not_found).
Proof.
  intros Hmiss. unfold items_of in Hmiss.
  split_and!.
  4: { intros Henv. rewrite (update_operator_healthy _ _ _ _ _ Henv).
       unfold items_of. by rewrite Hmiss. }
  all: unfold update_operator; run_any; simpl;
    destruct (pool_error env); simpl; [by eauto|];
    destruct (fault env 0%nat); simpl; [by eauto|];
    destruct (OperatorUpdate.evidence_path body); simpl;
    destruct (fault env 1%nat); simpl; try (by eauto);
    rewrite Hmiss; simpl; eauto;
    by rewrite (update_where_miss _ _ _ Hmiss), store_eta.
Qed.

Lemma update_inspector_miss env cid num body db :
  items_of cid num db = [] ->
  let out := update_inspector env cid num body db in
  committed out.2 = db /\ working out.2 = db /\
  (exists e, out.1 = Raise e) /\
  (healthy env -> out.1 = Raise not_found).
Proof.
  intros Hmiss. unfold items_of in Hmiss.
  split_and!.
  4: { intros Henv. rewrite (update_inspector_healthy _ _ _ _ _ Henv).
       unfold items_of. by rewrite Hmiss. }
  all: unfold update_inspector; run_any; simpl;
    destruct (pool_error env); simpl; [by eauto|];
    destruct (fault env 0%nat); simpl; [by eauto|];
    destruct (fault env 1%nat); simpl; try (by eauto);
    rewrite Hmiss; simpl; eauto;
    by rewrite (update_where_miss _ _ _ Hmiss), store_eta.
Qed.

(** Whatever fails, [upsert_cap] answers 500. *)
Lemma upsert_cap_raises_500 env cid num body db e :
  (upsert_cap env cid num body db).1 = Raise e ->
  exists detail, e = HTTPException 500 detail.
Proof.
  unfold upsert_cap; run_any; simpl.
  destruct (pool_error env); simpl; [intros [= <-]; by eauto|].
  destruct (fault env 0%nat); simpl; [intros [= <-]; by eauto|].
  destruct (fault env 1%nat); simpl; [intros [= <-]; by eauto|].
  destruct (length (filter (Cap.at_key cid num) (caps db))); simpl.
  - destruct (fault env 2%nat); simpl; [intros [= <-]; by eauto|].
    destruct (fault env 3%nat); simpl; [intros [= <-]; by eauto|done].
  - destruct (fault env 2%nat); simpl; [intros [= <-]; by eauto|done].
Qed.

(** C6: when no row of [checklist_items] is at the key, [update_operator]
    and [update_inspector] end in an error and leave the store as it was,
    with nothing pending on the connection, whatever the driver does; when
    the driver does not fail the error is 404, item not found.
    [upsert_cap] never answers 404: its errors are 500s, and on a key
    without a row it inserts one and answers ok. *)
Theorem item_updates_not_found env cid num db :
  items_of cid num db = [] ->
  (forall body,
     let out := update_operator env cid num body db in
     committed out.2 = db /\ working out.2 = db /\
     (exists e, out.1 = Raise e) /\
     (healthy env -> out.1 = Raise (HTTPException 404 "Item not found"))) /\
  (forall body,
     let out := update_inspector env cid num body db in
     committed out.2 = db /\ working out.2 = db /\
     (exists e, out.1 = Raise e) /\
     (healthy env -> out.1 = Raise (HTTPException 404 "Item not found"))) /\
  (forall env' cid' num' body' db' code detail,
     (upsert_cap env' cid' num' body' db').1 = Raise (HTTPException code detail) ->
     code = 500) /\
  (forall cid' num' body',
     healthy env -> caps_of cid' num' db = [] ->
     let out := upsert_cap env cid' num' body' db in
     out.1 = Ok ok_true /\ length (caps_of cid' num' (committed out.2)) = 1%nat).
Proof.
  intros Hmiss. split_and!.
  - intros body. by apply update_operator_miss.
  - intros body. by apply update_inspector_miss.
  - intros env' cid' num' body' db' code detail H.
    apply upsert_cap_raises_500 in H as [d [= -> _]]. done.
  - intros cid' num' body' Henv Hnone.
    simpl. rewrite (upsert_cap_healthy _ _ _ _ _ Henv), Hnone. simpl.
    split; [done|]. unfold caps_of in *. simpl.
    rewrite filter_app, Hnone. simpl. by rewrite filter_cons_True.
Qed.

(** ** Atomicity *)

(** The loop of [replace_cap_steps] commits nothing. *)
Lemma insert_loop_commits_nothing env cid num l : forall c,
  committed
    (for_each
       (fun '(idx, s) =>
          bind (execute env
                  (INSERT_cap_steps cid num idx (CapStep.step_text s)
                     (_parse_ddmmyyyy (CapStep.target_date s))))
               (fun _ => ret tt))
       l c).2
  = committed c.
Proof.
  induction l as [|[idx s] l IH]; intros c; [done|].
  cbn [for_each]. unfold bind at 1. unfold bind at 1.
  unfold execute, driver_call.
  destruct (fault env (calls c)); [done|]. simpl. unfold ret at 1.
  by rewrite IH.
Qed.

Ltac solve_rolled_back :=
  intros; cbn [trace];
  lazymatch goal with
  | |- context [pool_keeps ?env] => destruct (pool_keeps env) eqn:?
  | |- _ => idtac
  end;
  lazymatch goal with
  | |- context [cur_bound ?c] => destruct (cur_bound c)
  | |- _ => idtac
  end;
  first [ left; rewrite ?elem_of_app, ?elem_of_cons; by eauto 10
        | right; split_and!; [done..|];
          rewrite ?elem_of_app, ?elem_of_cons; by eauto 10 ].

Lemma update_operator_atomic env cid num body db e :
  let out := update_operator env cid num body db in
  out.1 = Raise e ->
  committed out.2 = db /\ working out.2 = db /\
  in_transaction out.2 = false /\
  (pool_error env = None ->
   Rollback ∈ trace out.2 \/
   (e = not_found /\ pool_keeps env = false /\ Close ∈ trace out.2)) /\
  (pool_error env <> None -> trace out.2 = []).
Proof.
  unfold update_operator, not_found; run_any; simpl.
  destruct (pool_error env); simpl.
  { intros [= <-]. split_and!; done. }
  destruct (fault env 0%nat); simpl.
  { intros [= <-]. split_and!; try done. solve_rolled_back. }
  destruct (OperatorUpdate.evidence_path body); simpl;
    (destruct (fault env 1%nat); simpl;
     [ intros [= <-]; split_and!; try done; solve_rolled_back |]);
    (destruct (filter (Item.at_key cid num) (checklist_items db)) eqn:E; simpl;
     [ intros [= <-]; split_and!; try done; solve_rolled_back
     | destruct (fault env 2%nat); simpl; [|done];
       intros [= <-]; split_and!; try done; solve_rolled_back ]).
Qed.

Lemma update_inspector_atomic env cid num body db e :
  let out := update_inspector env cid num body db in
  out.1 = Raise e ->
  committed out.2 = db /\ working out.2 = db /\
  in_transaction out.2 = false /\
  (pool_error env = None ->
   Rollback ∈ trace out.2 \/
   (e = not_found /\ pool_keeps env = false /\ Close ∈ trace out.2)) /\
  (pool_error env <> None -> trace out.2 = []).
Proof.
  unfold update_inspector, not_found; run_any; simpl.
  destruct (pool_error env); simpl.
  { intros [= <-]. split_and!; done. }
  destruct (fault env 0%nat); simpl.
  { intros [= <-]. split_and!; try done. solve_rolled_back. }
  destruct (fault env 1%nat); simpl.
  { intros [= <-]; split_and!; try done; solve_rolled_back. }
  destruct (filter (Item.at_key cid num) (checklist_items db)) eqn:E; simpl.
  - intros [= <-]; split_and!; try done; solve_rolled_back.
  - destruct (fault env 2%nat); simpl; [|done].
    intros [= <-]; split_and!; try done; solve_rolled_back.
Qed.

Lemma upsert_cap_atomic env cid num body db e :
  let out := upsert_cap env cid num body db in
  out.1 = Raise e ->
  committed out.2 = db /\ working out.2 = db /\
  in_transaction out.2 = false /\
  (pool_error env = None ->
   Rollback ∈ trace out.2 \/
   (e = not_found /\ pool_keeps env = false /\ Close ∈ trace out.2)) /\
  (pool_error env <> None -> trace out.2 = []).
Proof.
  unfold upsert_cap, not_found; run_any; simpl.
  destruct (pool_error env); simpl.
  { intros [= <-]. split_and!; try done. }
  destruct (fault env 0%nat); simpl.
  { intros [= <-]. split_and!; try done. solve_rolled_back. }
  destruct (fault env 1%nat); simpl.
  { intros [= <-]; split_and!; try done; solve_rolled_back. }
  destruct (length (filter (Cap.at_key cid num) (caps db))); simpl.
  - destruct (fault env 2%nat); simpl.
    { intros [= <-]; split_and!; try done; solve_rolled_back. }
    destruct (fault env 3%nat); simpl; [|done].
    intros [= <-]; split_and!; try done; solve_rolled_back.
  - destruct (fault env 2%nat); simpl; [|done].
    intros [= <-]; split_and!; try done; solve_rolled_back.
Qed.

Lemma replace_cap_steps_atomic env cid num body db e :
  let out := replace_cap_steps env cid num body db in
  out.1 = Raise e ->
  committed out.2 = db /\ working out.2 = db /\
  in_transaction out.2 = false /\
  (pool_error env = None ->
   Rollback ∈ trace out.2 \/
   (e = not_found /\ pool_keeps env = false /\ Close ∈ trace out.2)) /\
  (pool_error env <> None -> trace out.2 = []).
Proof.
  intros out.
  assert (out = replace_cap_steps env cid num body db) as Hout by done.
  clearbody out. revert Hout.
  unfold replace_cap_steps, not_found. unfold get_conn.
  destruct (pool_error env).
  { intros ->. simpl. intros [= <-]. split_and!; done. }
  unfold try_finally, try_except.
  unfold bind at 1. unfold cursor at 1, driver_call at 1.
  destruct (fault env (calls (fresh db))).
  { intros ->. simpl. intros [= <-]. split_and!; try done. solve_rolled_back. }
  unfold bind at 1. unfold execute at 1, driver_call at 1.
  cbn [calls fresh].
  destruct (fault env 1%nat).
  { intros ->. simpl. intros [= <-]. split_and!; try done. solve_rolled_back. }
  cbn [run_statement working committed trace calls in_transaction cur_bound fresh].
  unfold bind at 1.
  match goal with
  | |- context [for_each ?f ?l ?c] =>
      pose proof (insert_loop_commits_nothing env cid num l c) as Hloop;
      destruct (for_each f l c) as [[[]|e'] c2]
  end; cbn [committed snd] in Hloop.
  - unfold bind at 1. unfold commit, driver_call.
    destruct (fault env (calls c2)).
    + intros ->. simpl. intros [= <-]. rewrite Hloop.
      split_and!; try done. solve_rolled_back.
    + by intros ->.
  - intros ->. simpl. intros [= <-]. rewrite Hloop. split_and!; try done.
    solve_rolled_back.
Qed.

(** C7: every operation that writes is atomic on error.  When it ends
    in an error and a connection was taken, the transaction of the
    request has been rolled back by the time the error leaves the
    handler: by the handler's [conn.rollback()] when the driver raised
    (cursor, statement or commit), and, for the handler's own 404 of the
    item updates, by the pool on [put_conn], which rolls back a
    connection returned inside a transaction, or closes it when it does
    not keep it.  When the pool gave no connection there is no
    transaction and nothing reached the driver.  In every case the
    committed store is the one before the request, nothing is pending on
    the connection and no transaction is left open; so a
    [replace_cap_steps] that fails after its DELETE or part-way through
    its INSERTs leaves the steps of every key as they were. *)
Theorem mutations_roll_back_on_error env op db e :
  let out := run_mutation env op db in
  out.1 = Raise e ->
  (pool_error env = None ->
   Rollback ∈ trace out.2 \/
   (e = not_found /\ pool_keeps env = false /\ Close ∈ trace out.2)) /\
  (pool_error env <> None -> trace out.2 = []) /\
  in_transaction out.2 = false /\
  committed out.2 = db /\
  working out.2 = db /\
  (forall cid num, steps_of cid num (committed out.2) = steps_of cid num db).
Proof.
  intros out Hout.
  assert (committed out.2 = db /\ working out.2 = db /\
          in_transaction out.2 = false /\
          (pool_error env = None ->
           Rollback ∈ trace out.2 \/
           (e = not_found /\ pool_keeps env = false /\ Close ∈ trace out.2)) /\
          (pool_error env <> None -> trace out.2 = []))
    as (Hc & Hw & Ht & Hr & Hn).
  { subst out. destruct op as [cid num body|cid num body|cid num body|cid num body];
      simpl in *.
    - by apply update_operator_atomic.
    - by apply update_inspector_atomic.
    - by apply upsert_cap_atomic.
    - by apply replace_cap_steps_atomic. }
  split_and!; try done. intros cid num. by rewrite Hc.
Qed.

(** ** Reading *)

Section OrderBy.
Context {R : Type} (key : R -> Z).

Lemma insert_by_perm r (l : list R) : insert_by key r l ≡ₚ r :: l.
Proof.
  induction l as [|x l IH]; [done|]. simpl.
  destruct (key r <? key x); [done|].
  rewrite IH. apply Permutation_swap.
Qed.

Lemma order_by_perm (l : list R) : order_by key l ≡ₚ l.
Proof.
  induction l as [|x l IH]; [done|].
  unfold order_by in *. simpl. by rewrite insert_by_perm, IH.
Qed.

Lemma insert_by_sorted r (l : list R) :
  StronglySorted (fun a b => key a <= key b) l ->
  StronglySorted (fun a b => key a <= key b) (insert_by key r l).
Proof.
  induction 1 as [|x l Hl IH Hx]; simpl; [by repeat constructor|].
  destruct (Z.ltb_spec (key r) (key x)) as [Hlt|Hge].
  - constructor; [by constructor|]. constructor; [lia|].
    eapply Forall_impl; [exact Hx|]. simpl. intros; lia.
  - constructor; [done|].
    rewrite insert_by_perm. constructor; [lia | done].
Qed.

Lemma order_by_sorted (l : list R) :
  StronglySorted (fun a b => key a <= key b) (order_by key l).
Proof.
  induction l as [|x l IH]; [constructor|].
  by apply insert_by_sorted.
Qed.

(** Rows already in strictly ascending order stay as they are. *)
Lemma order_by_ascending (l : list R) :
  StronglySorted (fun a b => key a < key b) l -> order_by key l = l.
Proof.
  induction 1 as [|x l Hl IH Hx]; [done|].
  unfold order_by in *. simpl. rewrite IH.
  destruct l as [|y l]; [done|]. simpl.
  apply Forall_cons in Hx as [Hxy _].
  by destruct (Z.ltb_spec (key x) (key y)); [|lia].
Qed.

Lemma order_by_nil_iff (l : list R) : order_by key l = [] <-> l = [].
Proof.
  split; [|by intros ->].
  intros H. apply Permutation_nil_r. by rewrite <- H, order_by_perm.
Qed.
End OrderBy.

Lemma query_healthy {A} env (Henv : healthy env) (result : Store -> A) c :
  query env result c
  = (Ok (result (working c)),
     mkConn (committed c) (working c) (S (calls c)) (trace c) true (cur_bound c)).
Proof. unfold query. by rewrite (proj2 Henv). Qed.

Ltac run_read Henv :=
  rewrite ?(get_conn_healthy _ Henv);
  unfold try_finally, try_except, bind, ret, raise, cursor_close, put_conn, fresh;
  repeat first [ rewrite (cursor_healthy _ Henv)
               | rewrite (query_healthy _ Henv)
               | progress simpl ].

Lemma get_checklist_items_healthy env cid db :
  healthy env ->
  get_checklist_items env cid db
  = (Ok (item_view <$> order_by Item.number (items_in cid db)),
     mkConn db db 2
       [Cursor; CursorClose; PutConn; if pool_keeps env then Rollback else Close]
       false true).
Proof. intros Henv. unfold get_checklist_items. by run_read Henv. Qed.

Lemma get_cap_healthy env cid num db :
  healthy env ->
  get_cap env cid num db
  = (Ok (head (cap_view <$> caps_of cid num db)),
     mkConn db db 2
       [Cursor; CursorClose; PutConn; if pool_keeps env then Rollback else Close]
       false true).
Proof. intros Henv. unfold get_cap. by run_read Henv. Qed.

Lemma get_cap_steps_healthy env cid num db :
  healthy env ->
  get_cap_steps env cid num db
  = (Ok (step_view <$> order_by Step.step_no (steps_of cid num db)),
     mkConn db db 2
       [Cursor; CursorClose; PutConn; if pool_keeps env then Rollback else Close]
       false true).
Proof. intros Henv. unfold get_cap_steps. by run_read Henv. Qed.

(** X1: [get_checklist_items] answers with the rows of the checklist, each
    once, in ascending order of [number], and writes nothing; a checklist
    without rows gives the empty list, not an error. *)
Theorem get_checklist_items_sorted env cid db :
  healthy env ->
  let out := get_checklist_items env cid db in
  exists rows,
    out.1 = Ok (item_view <$> rows) /\
    rows ≡ₚ items_in cid db /\
    StronglySorted (fun a b => Item.number a <= Item.number b) rows /\
    committed out.2 = db /\
    (items_in cid db = [] -> out.1 = Ok []).
Proof.
  intros Henv. simpl. rewrite (get_checklist_items_healthy _ _ _ Henv). simpl.
  exists (order_by Item.number (items_in cid db)).
  split_and!; [done | apply order_by_perm | apply order_by_sorted | done |].
  by intros ->.
Qed.

Lemma renumbered_ascending cid num l :
  StronglySorted (fun a b => Step.step_no a < Step.step_no b) (renumbered cid num l).
Proof.
  unfold renumbered.
  assert (forall (k : nat) (l : list CapStep.t),
            StronglySorted (fun a b => Step.step_no a < Step.step_no b)
              (imap (fun i s => Step.mk cid num (1 + Z.of_nat (k + i))
                                  (Some (CapStep.step_text s))
                                  (_parse_ddmmyyyy (CapStep.target_date s))) l)) as H.
  { clear l. intros k l. revert k. induction l as [|s l IH]; intros k; [constructor|].
    rewrite imap_cons. constructor.
    - erewrite imap_ext; [apply (IH (S k))|]. intros i x _. simpl.
      do 3 f_equal. lia.
    - apply Forall_forall. intros r Hr.
      apply list_elem_of_lookup in Hr as [i Hi].
      rewrite list_lookup_imap in Hi.
      destruct (l !! i); [|done]. injection Hi as <-. simpl. lia. }
  apply (H 0%nat).
Qed.

(** X2: what [replace_cap_steps] stored is what [get_cap_steps] shows: the
    steps of the request in the order of the request, numbered from
    one, with their texts and parsed dates; an empty request shows as the
    empty list. *)
Theorem get_cap_steps_after_replace env1 env2 cid num body db :
  healthy env1 ->
  healthy env2 ->
  let stored := committed (replace_cap_steps env1 cid num body db).2 in
  (get_cap_steps env2 cid num stored).1
  = Ok (shown_steps (CapStepsReplace.steps body)).
Proof.
  intros H1 H2. simpl.
  destruct (replace_cap_steps_healthy env1 cid num body db H1) as (_ & _ & Hc).
  rewrite (get_cap_steps_healthy _ _ _ _ H2). simpl. f_equal.
  unfold steps_of. rewrite Hc. simpl.
  rewrite filter_app, filter_of_complement, renumbered_at_key. simpl.
  rewrite order_by_ascending by apply renumbered_ascending.
  unfold renumbered, shown_steps. by rewrite fmap_imap.
Qed.

(** X3: after [upsert_cap], [get_cap] shows the description, the owner and
    the parsed target date of the request, on every store (also one that
    held several rows for the key). *)
Theorem get_cap_after_upsert env1 env2 cid num body db :
  healthy env1 ->
  healthy env2 ->
  let stored := committed (upsert_cap env1 cid num body db).2 in
  (get_cap env2 cid num stored).1
  = Ok (Some (CapView.mk (Some (CapUpsert.description body))
                (CapUpsert.owner body)
                (_parse_ddmmyyyy (CapUpsert.target_date body)))).
Proof.
  intros H1 H2. simpl.
  rewrite (get_cap_healthy _ _ _ _ H2). simpl. do 2 f_equal.
  rewrite (upsert_cap_healthy _ _ _ _ _ H1).
  destruct (caps_of cid num db) as [|r0 rs] eqn:E; simpl.
  - unfold caps_of in *. simpl. rewrite filter_app, E. simpl.
    by rewrite filter_cons_True.
  - unfold caps_of in *. simpl.
    rewrite update_where_hit by (intros r; apply set_cap_keeps_key).
    by rewrite E.
Qed.

(** X4: a key without a row of [caps] is no error for [get_cap]: it
    answers with the empty object; and a key with rows shows the columns
    of one of the rows stored for it. *)
Theorem get_cap_missing_is_empty env cid num db :
  healthy env ->
  let out := get_cap env cid num db in
  committed out.2 = db /\
  (caps_of cid num db = [] -> out.1 = Ok None) /\
  (caps_of cid num db <> [] ->
   exists r, r ∈ caps db /\ Cap.at_key cid num r /\ out.1 = Ok (Some (cap_view r))).
Proof.
  intros Henv. simpl. rewrite (get_cap_healthy _ _ _ _ Henv). simpl.
  split_and!; [done | by intros -> |].
  destruct (caps_of cid num db) as [|r rs] eqn:E; [done|]. intros _.
  exists r. assert (r ∈ caps_of cid num db) as Hin by (rewrite E; left).
  apply list_elem_of_filter in Hin as [Hk Hin]. done.
Qed.

Lemma quiet_healthy clk : healthy (quiet clk).
Proof. by split. Qed.

(** X5: a read handler changes nothing and fails only with a 500:
    whatever the driver does, the store is as before, and the answer is
    either the one given when nothing fails or the 500 of that
    handler. *)
Theorem reads_change_nothing env cid num db :
  (let out := get_checklist_items env cid db in
   committed out.2 = db /\ working out.2 = db /\
   (out.1 = (get_checklist_items (quiet (clock env)) cid db).1 \/
    exists msg, out.1 = Raise (HTTPException 500 msg))) /\
  (let out := get_cap env cid num db in
   committed out.2 = db /\ working out.2 = db /\
   (out.1 = (get_cap (quiet (clock env)) cid num db).1 \/
    exists msg, out.1 = Raise (HTTPException 500 msg))) /\
  (let out := get_cap_steps env cid num db in
   committed out.2 = db /\ working out.2 = db /\
   (out.1 = (get_cap_steps (quiet (clock env)) cid num db).1 \/
    exists msg, out.1 = Raise (HTTPException 500 msg))) /\
  (let out := compute_cap_final_date env cid num db in
   committed out.2 = db /\ working out.2 = db /\
   (out.1 = (compute_cap_final_date (quiet (clock env)) cid num db).1 \/
    exists msg, out.1 = Raise (HTTPException 500 msg))).
Proof.
  split_and!.
  - rewrite (get_checklist_items_healthy _ _ _ (quiet_healthy _)).
    unfold get_checklist_items, query; run_any; simpl.
    destruct (pool_error env); simpl; [by eauto 6|].
    destruct (fault env 0%nat); simpl; [by eauto 6|].
    destruct (fault env 1%nat); simpl; by eauto 6.
  - rewrite (get_cap_healthy _ _ _ _ (quiet_healthy _)).
    unfold get_cap, query; run_any; simpl.
    destruct (pool_error env); simpl; [by eauto 6|].
    destruct (fault env 0%nat); simpl; [by eauto 6|].
    destruct (fault env 1%nat); simpl; by eauto 6.
  - rewrite (get_cap_steps_healthy _ _ _ _ (quiet_healthy _)).
    unfold get_cap_steps, query; run_any; simpl.
    destruct (pool_error env); simpl; [by eauto 6|].
    destruct (fault env 0%nat); simpl; [by eauto 6|].
    destruct (fault env 1%nat); simpl; by eauto 6.
  - rewrite (compute_cap_final_date_healthy _ _ _ _ (quiet_healthy _)).
    unfold compute_cap_final_date, fetchone_max; run_any; simpl.
    destruct (pool_error env); simpl; [by eauto 6|].
    destruct (fault env 0%nat); simpl; [by eauto 6|].
    destruct (fault env 1%nat); simpl; [by eauto 6|].
    split_and!; try done. left.
    by destruct (max_target_date cid num db).
Qed.

(** ** Writing under faults *)

Lemma insert_loop_ok env cid num l : forall start c c',
  for_each
    (fun '(idx, s) =>
       bind (execute env
               (INSERT_cap_steps cid num idx (CapStep.step_text s)
                  (_parse_ddmmyyyy (CapStep.target_date s))))
            (fun _ => ret tt))
    (enumerate start l) c
  = (Ok tt, c') ->
  committed c' = committed c /\
  working c'
  = mkStore (checklist_items (working c)) (caps (working c))
      (cap_steps (working c) ++ inserted cid num start l).
Proof.
  induction l as [|s l IH]; intros start c c'.
  - unfold inserted, enumerate. simpl. unfold ret. intros [= <-].
    by rewrite app_nil_r, store_eta.
  - unfold inserted. rewrite enumerate_cons, fmap_cons.
    cbn [for_each]. unfold bind at 1. unfold bind at 1.
    unfold execute, driver_call.
    destruct (fault env (calls c)); [done|].
    cbn [run_statement]. unfold ret at 1. intros H.
    apply IH in H as [Hc Hw]. cbn [committed working checklist_items caps cap_steps] in *.
    split; [done|]. rewrite Hw. unfold inserted. by rewrite <- app_assoc.
Qed.

Lemma update_operator_ok env cid num body db r :
  (update_operator env cid num body db).1 = Ok r ->
  (update_operator (quiet (clock env)) cid num body db).1 = Ok r /\
  committed (update_operator env cid num body db).2
  = committed (update_operator (quiet (clock env)) cid num body db).2 /\
  working (update_operator env cid num body db).2
  = committed (update_operator env cid num body db).2.
Proof.
  rewrite (update_operator_healthy _ _ _ _ _ (quiet_healthy _)).
  unfold update_operator, items_of; run_any; simpl.
  destruct (pool_error env); simpl; [done|].
  destruct (fault env 0%nat); simpl; [done|].
  destruct (OperatorUpdate.evidence_path body); simpl;
    (destruct (fault env 1%nat); simpl; [done|]);
    (destruct (filter (Item.at_key cid num) (checklist_items db)); simpl; [done|]);
    (destruct (fault env 2%nat); simpl; [done|]); by intros [= <-].
Qed.

Lemma update_inspector_ok env cid num body db r :
  (update_inspector env cid num body db).1 = Ok r ->
  (update_inspector (quiet (clock env)) cid num body db).1 = Ok r /\
  committed (update_inspector env cid num body db).2
  = committed (update_inspector (quiet (clock env)) cid num body db).2 /\
  working (update_inspector env cid num body db).2
  = committed (update_inspector env cid num body db).2.
Proof.
  rewrite (update_inspector_healthy _ _ _ _ _ (quiet_healthy _)).
  unfold update_inspector, items_of; run_any; simpl.
  destruct (pool_error env); simpl; [done|].
  destruct (fault env 0%nat); simpl; [done|].
  destruct (fault env 1%nat); simpl; [done|].
  destruct (filter (Item.at_key cid num) (checklist_items db)); simpl; [done|].
  destruct (fault env 2%nat); simpl; [done|]. by intros [= <-].
Qed.

Lemma upsert_cap_ok env cid num body db r :
  (upsert_cap env cid num body db).1 = Ok r ->
  (upsert_cap (quiet (clock env)) cid num body db).1 = Ok r /\
  committed (upsert_cap env cid num body db).2
  = committed (upsert_cap (quiet (clock env)) cid num body db).2 /\
  working (upsert_cap env cid num body db).2
  = committed (upsert_cap env cid num body db).2.
Proof.
  rewrite (upsert_cap_healthy _ _ _ _ _ (quiet_healthy _)).
  unfold upsert_cap, caps_of; run_any; simpl.
  destruct (pool_error env); simpl; [done|].
  destruct (fault env 0%nat); simpl; [done|].
  destruct (fault env 1%nat); simpl; [done|].
  destruct (filter (Cap.at_key cid num) (caps db)) eqn:E; simpl.
  - destruct (fault env 2%nat); simpl; [done|].
    destruct (fault env 3%nat); simpl; [done|]. intros [= <-].
    by rewrite (update_where_miss _ _ _ E).
  - destruct (fault env 2%nat); simpl; [done|]. by intros [= <-].
Qed.

Lemma replace_cap_steps_ok env cid num body db r :
  (replace_cap_steps env cid num body db).1 = Ok r ->
  (replace_cap_steps (quiet (clock env)) cid num body db).1 = Ok r /\
  committed (replace_cap_steps env cid num body db).2
  = committed (replace_cap_steps (quiet (clock env)) cid num body db).2 /\
  working (replace_cap_steps env cid num body db).2
  = committed (replace_cap_steps env cid num body db).2.
Proof.
  destruct (replace_cap_steps_healthy (quiet (clock env)) cid num body db
              (quiet_healthy _)) as (-> & _ & ->).
  rewrite <- inserted_renumbered.
  set (out := replace_cap_steps env cid num body db).
  assert (out = replace_cap_steps env cid num body db) as Hout by done.
  clearbody out. revert Hout.
  unfold replace_cap_steps. unfold get_conn.
  destruct (pool_error env); [by intros ->|].
  unfold try_finally, try_except.
  unfold bind at 1. unfold cursor at 1, driver_call at 1.
  destruct (fault env (calls (fresh db))); [by intros ->|].
  unfold bind at 1. unfold execute at 1, driver_call at 1.
  cbn [calls fresh].
  destruct (fault env 1%nat); [by intros ->|].
  cbn [run_statement working committed trace calls fresh].
  unfold bind at 1.
  match goal with
  | |- context [for_each ?f (enumerate 1 ?l) ?c] =>
      pose proof (insert_loop_ok env cid num l 1 c) as Hloop;
      destruct (for_each f (enumerate 1 l) c) as [[[]|e'] c2]
  end; [|by intros ->].
  destruct (Hloop c2 eq_refl) as [Hc Hw]. clear Hloop.
  cbn [committed working checklist_items caps cap_steps] in Hc, Hw.
  unfold bind at 1. unfold commit, driver_call.
  destruct (fault env (calls c2)); [by intros ->|].
  intros ->. simpl. intros [= <-]. by rewrite Hw.
Qed.

Lemma run_mutation_ok env op db r :
  (run_mutation env op db).1 = Ok r ->
  (run_mutation (quiet (clock env)) op db).1 = Ok r /\
  committed (run_mutation env op db).2 = written (clock env) op db /\
  working (run_mutation env op db).2 = committed (run_mutation env op db).2.
Proof.
  unfold written. destruct op; simpl.
  - apply update_operator_ok.
  - apply update_inspector_ok.
  - apply upsert_cap_ok.
  - apply replace_cap_steps_ok.
Qed.

Lemma run_mutation_raise env op db e :
  (run_mutation env op db).1 = Raise e ->
  committed (run_mutation env op db).2 = db /\
  working (run_mutation env op db).2 = db.
Proof.
  destruct op; simpl; intros H.
  - by destruct (update_operator_atomic _ _ _ _ _ _ H) as (? & ? & _).
  - by destruct (update_inspector_atomic _ _ _ _ _ _ H) as (? & ? & _).
  - by destruct (upsert_cap_atomic _ _ _ _ _ _ H) as (? & ? & _).
  - by destruct (replace_cap_steps_atomic _ _ _ _ _ _ H) as (? & ? & _).
Qed.

(** All or nothing. *)
Lemma run_mutation_cases env op db :
  committed (run_mutation env op db).2 = db \/
  committed (run_mutation env op db).2 = written (clock env) op db.
Proof.
  destruct (run_mutation env op db).1 as [r|e] eqn:E.
  - right. by apply run_mutation_ok in E as (_ & ? & _).
  - left. by apply run_mutation_raise in E as [? _].
Qed.

(** X6: an operation that writes and answers without an error has done
    all of its work: whatever the driver did on the way, the answer and
    the committed store are those of a run in which nothing fails, and
    nothing is left pending on the connection. *)
Theorem mutation_success_is_complete env op db r :
  let out := run_mutation env op db in
  out.1 = Ok r ->
  (run_mutation (quiet (clock env)) op db).1 = Ok r /\
  committed out.2 = committed (run_mutation (quiet (clock env)) op db).2 /\
  working out.2 = committed out.2.
Proof. intros out Hok. by apply run_mutation_ok. Qed.

Lemma update_operator_raises env cid num body db e :
  (update_operator env cid num body db).1 = Raise e ->
  (exists msg, e = HTTPException 500 msg) \/
  (e = not_found /\ items_of cid num db = []).
Proof.
  unfold update_operator, items_of, not_found; run_any; simpl.
  destruct (pool_error env); simpl; [intros [= <-]; by eauto|].
  destruct (fault env 0%nat); simpl; [intros [= <-]; by eauto|].
  destruct (OperatorUpdate.evidence_path body); simpl;
    (destruct (fault env 1%nat); simpl; [intros [= <-]; by eauto|]);
    (destruct (filter (Item.at_key cid num) (checklist_items db)); simpl;
     [intros [= <-]; by right|]);
    (destruct (fault env 2%nat); simpl; [intros [= <-]; by eauto|done]).
Qed.

Lemma update_inspector_raises env cid num body db e :
  (update_inspector env cid num body db).1 = Raise e ->
  (exists msg, e = HTTPException 500 msg) \/
  (e = not_found /\ items_of cid num db = []).
Proof.
  unfold update_inspector, items_of, not_found; run_any; simpl.
  destruct (pool_error env); simpl; [intros [= <-]; by eauto|].
  destruct (fault env 0%nat); simpl; [intros [= <-]; by eauto|].
  destruct (fault env 1%nat); simpl; [intros [= <-]; by eauto|].
  destruct (filter (Item.at_key cid num) (checklist_items db)); simpl;
    [intros [= <-]; by right|].
  destruct (fault env 2%nat); simpl; [intros [= <-]; by eauto|done].
Qed.

Lemma replace_cap_steps_raises env cid num body db e :
  (replace_cap_steps env cid num body db).1 = Raise e ->
  exists msg, e = HTTPException 500 msg.
Proof.
  set (out := replace_cap_steps env cid num body db).
  assert (out = replace_cap_steps env cid num body db) as Hout by done.
  clearbody out. revert Hout.
  unfold replace_cap_steps. unfold get_conn.
  destruct (pool_error env); [intros ->; simpl; intros [= <-]; by eauto|].
  unfold try_finally, try_except.
  match goal with
  | |- context [bind ?m ?k (fresh db)] => destruct (bind m k (fresh db)) as [[r'|e'] c']
  end; intros ->; simpl; [done|]. intros [= <-]. by eauto.
Qed.

(** X7: the errors of the operations that write are 500s, but for the
    404 of the two item updates, which is given only when no row of
    [checklist_items] is at the key; [upsert_cap] and [replace_cap_steps]
    never answer 404.  When the pool gives no connection the answer is
    the 500 of the pool and nothing is called. *)
Theorem mutation_errors env op db :
  let out := run_mutation env op db in
  (forall e, out.1 = Raise e ->
     (exists msg, e = HTTPException 500 msg) \/
     (e = HTTPException 404 "Item not found" /\
      match op with
      | OperatorUpdateOf cid num _ | InspectorUpdateOf cid num _ =>
          items_of cid num db = []
      | _ => False
      end)) /\
  (forall msg, pool_error env = Some msg ->
     out.1 = Raise (HTTPException 500 ("DB pool error: " +:+ msg)) /\
     trace out.2 = [] /\ committed out.2 = db).
Proof.
  split.
  - intros e He. destruct op as [cid num body|cid num body|cid num body|cid num body];
      simpl in *.
    + by apply update_operator_raises in He.
    + by apply update_inspector_raises in He.
    + left. by eapply upsert_cap_raises_500.
    + left. by eapply replace_cap_steps_raises.
  - intros msg Hp.
    destruct op; simpl;
      unfold update_operator, update_inspector, upsert_cap, replace_cap_steps, get_conn;
      by rewrite Hp.
Qed.

(** ** What is written *)

Lemma written_operator clk cid num body db :
  written clk (OperatorUpdateOf cid num body) db
  = mkStore (update_where (Item.at_key cid num) (operator_set body) (checklist_items db))
            (caps db) (cap_steps db).
Proof.
  unfold written, operator_set. simpl.
  rewrite (update_operator_healthy _ _ _ _ _ (quiet_healthy _)).
  destruct (items_of cid num db) eqn:E; simpl; [|done].
  by rewrite (update_where_miss _ _ _ E), store_eta.
Qed.

Lemma written_inspector clk cid num body db :
  written clk (InspectorUpdateOf cid num body) db
  = mkStore (update_where (Item.at_key cid num)
               (set_inspector (InspectorUpdate.acceptance body)
                  (InspectorUpdate.feedback body)) (checklist_items db))
            (caps db) (cap_steps db).
Proof.
  unfold written. simpl.
  rewrite (update_inspector_healthy _ _ _ _ _ (quiet_healthy _)).
  destruct (items_of cid num db) eqn:E; simpl; [|done].
  by rewrite (update_where_miss _ _ _ E), store_eta.
Qed.

Lemma written_upsert clk cid num body db :
  written clk (CapUpsertOf cid num body) db
  = mkStore (checklist_items db)
      (match caps_of cid num db with
       | [] => caps db ++ [Cap.mk cid num (Some (CapUpsert.description body))
                             (CapUpsert.owner body)
                             (_parse_ddmmyyyy (CapUpsert.target_date body))
                             (caps_updated_at_default clk)]
       | _ :: _ => update_where (Cap.at_key cid num)
                     (set_cap clk (CapUpsert.description body) (CapUpsert.owner body)
                        (_parse_ddmmyyyy (CapUpsert.target_date body))) (caps db)
       end)
      (cap_steps db).
Proof.
  unfold written. simpl.
  rewrite (upsert_cap_healthy _ _ _ _ _ (quiet_healthy _)).
  by destruct (caps_of cid num db).
Qed.

Lemma written_replace clk cid num body db :
  written clk (CapStepsReplaceOf cid num body) db
  = mkStore (checklist_items db) (caps db)
      (filter (fun r => ~ Step.at_key cid num r) (cap_steps db)
       ++ renumbered cid num (CapStepsReplace.steps body)).
Proof.
  unfold written. simpl.
  by destruct (replace_cap_steps_healthy (quiet clk) cid num body db
                 (quiet_healthy _)) as (_ & _ & ->).
Qed.

Lemma update_where_keeps {R B} (P : R -> Prop) `{!forall r, Decision (P r)}
    (set : R -> R) (f : R -> B) (l : list R) :
  (forall r, f (set r) = f r) ->
  f <$> update_where P set l = f <$> l.
Proof.
  intros Hf. unfold update_where. rewrite <- list_fmap_compose.
  apply list_fmap_ext. intros i r _. simpl. by destruct (decide (P r)).
Qed.

Lemma operator_set_seed body r : item_seed (operator_set body r) = item_seed r.
Proof. unfold operator_set. by destruct (OperatorUpdate.evidence_path body). Qed.

Lemma caps_of_upsert_other clk cid num body db cid' num' :
  (cid', num') <> (cid, num) ->
  caps_of cid' num' (written clk (CapUpsertOf cid num body) db) = caps_of cid' num' db.
Proof.
  intros Hne. rewrite written_upsert. unfold caps_of. simpl.
  destruct (filter (Cap.at_key cid num) (caps db)) as [|r0 rs].
  - rewrite filter_app, (filter_cons_False _ (Cap.mk _ _ _ _ _ _)).
    + by rewrite app_nil_r.
    + intros [? ?]; simpl in *. by subst.
  - apply update_where_other.
    + intros r. by apply caps_of_other_key.
    + intros r Hr Hq. apply set_cap_keeps_key in Hq.
      by apply (caps_of_other_key cid num cid' num' r).
Qed.

Lemma caps_of_upsert_key clk cid num body db :
  caps_of cid num (written clk (CapUpsertOf cid num body) db)
  = match caps_of cid num db with
    | [] => [Cap.mk cid num (Some (CapUpsert.description body))
               (CapUpsert.owner body)
               (_parse_ddmmyyyy (CapUpsert.target_date body))
               (caps_updated_at_default clk)]
    | rows => set_cap clk (CapUpsert.description body) (CapUpsert.owner body)
                (_parse_ddmmyyyy (CapUpsert.target_date body)) <$> rows
    end.
Proof.
  rewrite written_upsert. unfold caps_of. simpl.
  destruct (filter (Cap.at_key cid num) (caps db)) as [|r0 rs] eqn:E.
  - rewrite filter_app, E. simpl. by rewrite filter_cons_True.
  - rewrite update_where_hit by (intros r; apply set_cap_keeps_key). by rewrite E.
Qed.

(** X8: an operation that writes keeps to its table, whether it ends in
    an error or not: an item update leaves [caps] and [cap_steps] alone
    and neither adds nor removes a checklist item nor changes its key,
    reference or question; [upsert_cap] leaves [checklist_items],
    [cap_steps] and the CAP rows of other keys alone and removes no row;
    [replace_cap_steps] leaves [checklist_items], [caps] and the steps of
    other keys alone. *)
Theorem mutations_keep_to_their_table env op db :
  let after := committed (run_mutation env op db).2 in
  match op with
  | OperatorUpdateOf _ _ _ | InspectorUpdateOf _ _ _ =>
      caps after = caps db /\ cap_steps after = cap_steps db /\
      item_seed <$> checklist_items after = item_seed <$> checklist_items db
  | CapUpsertOf cid num _ =>
      checklist_items after = checklist_items db /\
      cap_steps after = cap_steps db /\
      (length (caps db) <= length (caps after))%nat /\
      (forall cid' num', (cid', num') <> (cid, num) ->
         caps_of cid' num' after = caps_of cid' num' db)
  | CapStepsReplaceOf cid num _ =>
      checklist_items after = checklist_items db /\
      caps after = caps db /\
      filter (fun r => ~ Step.at_key cid num r) (cap_steps after)
      = filter (fun r => ~ Step.at_key cid num r) (cap_steps db)
  end.
Proof.
  simpl. destruct (run_mutation_cases env op db) as [-> | ->].
  { destruct op; split_and!; done. }
  destruct op as [cid num body|cid num body|cid num body|cid num body].
  - rewrite written_operator. simpl. split_and!; try done.
    apply update_where_keeps, operator_set_seed.
  - rewrite written_inspector. simpl. split_and!; try done.
    by apply update_where_keeps.
  - split_and!.
    + by rewrite written_upsert.
    + by rewrite written_upsert.
    + rewrite written_upsert. simpl. destruct (caps_of cid num db).
      * rewrite length_app. simpl. lia.
      * by rewrite update_where_length.
    + intros cid' num' Hne. by apply caps_of_upsert_other.
  - rewrite written_replace. simpl. split_and!; try done.
    by rewrite filter_app, filter_complement_twice, renumbered_off_key, app_nil_r.
Qed.

(** X9: no operation breaks the rule of one CAP row per key: when the
    store has at most one row of [caps] for every key, so it has after
    any operation that writes, however that ends. *)
Theorem mutations_keep_one_cap_per_key env op db :
  one_cap_per_key db ->
  one_cap_per_key (committed (run_mutation env op db).2).
Proof.
  intros Hone. destruct (run_mutation_cases env op db) as [-> | ->]; [done|].
  destruct op as [cid num body|cid num body|cid num body|cid num body].
  - rewrite written_operator. intros c n. apply Hone.
  - rewrite written_inspector. intros c n. apply Hone.
  - intros c n. destruct (decide ((c, n) = (cid, num))) as [[= -> ->]|Hne].
    + rewrite caps_of_upsert_key. specialize (Hone cid num).
      destruct (caps_of cid num db); simpl; [lia|].
      by rewrite length_fmap.
    + rewrite caps_of_upsert_other by done. apply Hone.
  - rewrite written_replace. intros c n. apply Hone.
Qed.

Lemma renumbered_keys_distinct cid num l :
  NoDup (step_key <$> renumbered cid num l).
Proof.
  apply NoDup_alt. intros i j k Hi Hj.
  unfold renumbered in *. rewrite list_lookup_fmap, list_lookup_imap in Hi, Hj.
  destruct (l !! i); [|done]. destruct (l !! j); [|done].
  simpl in *. injection Hi as <-. injection Hj as Hj. lia.
Qed.

(** X10: no operation makes two steps of one item carry the same number:
    when the rows of [cap_steps] differ pairwise in (checklist, item,
    step_no), so they do after any operation that writes, however that
    ends. *)
Theorem mutations_keep_step_keys_distinct env op db :
  step_keys_distinct db ->
  step_keys_distinct (committed (run_mutation env op db).2).
Proof.
  unfold step_keys_distinct.
  intros Hnd. destruct (run_mutation_cases env op db) as [-> | ->]; [done|].
  destruct op as [cid num body|cid num body|cid num body|cid num body].
  - by rewrite written_operator.
  - by rewrite written_inspector.
  - by rewrite written_upsert.
  - rewrite written_replace. simpl. rewrite fmap_app. apply NoDup_app. split_and!.
    + eapply sublist_NoDup; [exact Hnd|]. apply fmap_sublist, sublist_filter.
    + intros k Hk1 Hk2.
      apply list_elem_of_fmap in Hk1 as (r1 & -> & Hr1).
      apply list_elem_of_fmap in Hk2 as (r2 & Heq & Hr2).
      apply list_elem_of_filter in Hr1 as [Hoff _].
      assert (Step.at_key cid num r2) as [Hc Hn].
      { rewrite <- renumbered_at_key in Hr2.
        by apply list_elem_of_filter in Hr2 as [? _]. }
      apply Hoff. unfold step_key in Heq. injection Heq as H1 H2 _.
      split; congruence.
    + apply renumbered_keys_distinct.
Qed.

(** ** How the operations compose *)

Section UpdateWhere.
Context {R : Type} (P Q : R -> Prop)
        `{!forall r, Decision (P r)} `{!forall r, Decision (Q r)}
        (f g : R -> R).

Lemma update_where_comm (l : list R) :
  (forall r, P (g r) <-> P r) -> (forall r, Q (f r) <-> Q r) ->
  (forall r, f (g r) = g (f r)) ->
  update_where P f (update_where Q g l) = update_where Q g (update_where P f l).
Proof.
  intros HP HQ Hfg. unfold update_where. rewrite <- !list_fmap_compose.
  apply list_fmap_ext. intros i r _. cbn [compose].
  destruct (decide (Q r)) as [Hq|Hq]; destruct (decide (P r)) as [Hp|Hp];
    cbn beta iota.
  - destruct (decide (P (g r))) as [_|Hn]; [|by (destruct Hn; apply (proj2 (HP r)))].
    destruct (decide (Q (f r))) as [_|Hn]; [|by (destruct Hn; apply (proj2 (HQ r)))].
    apply Hfg.
  - destruct (decide (P (g r))) as [Hy|_]; [by apply (proj1 (HP r)) in Hy|].
    by destruct (decide (Q r)).
  - destruct (decide (Q (f r))) as [Hy|_]; [by apply (proj1 (HQ r)) in Hy|].
    by destruct (decide (P r)).
  - destruct (decide (P r)); [done|]. by destruct (decide (Q r)).
Qed.

Lemma update_where_idem (l : list R) :
  (forall r, P (f r) <-> P r) -> (forall r, f (f r) = f r) ->
  update_where P f (update_where P f l) = update_where P f l.
Proof.
  intros HP Hff. unfold update_where. rewrite <- list_fmap_compose.
  apply list_fmap_ext. intros i r _. cbn [compose].
  destruct (decide (P r)) as [Hp|Hp]; cbn beta iota.
  - destruct (decide (P (f r))) as [_|Hn]; [apply Hff|by (destruct Hn; apply (proj2 (HP r)))].
  - by destruct (decide (P r)).
Qed.
End UpdateWhere.

Lemma update_operator_written env cid num body db :
  healthy env ->
  committed (update_operator env cid num body db).2
  = written (clock env) (OperatorUpdateOf cid num body) db /\
  (update_operator env cid num body db).1
  = match items_of cid num db with
    | [] => Raise not_found
    | _ :: _ => Ok ok_true
    end.
Proof.
  intros Henv. rewrite written_operator. unfold operator_set.
  rewrite (update_operator_healthy _ _ _ _ _ Henv).
  destruct (items_of cid num db) eqn:E; simpl; [|done].
  by rewrite (update_where_miss _ _ _ E), store_eta.
Qed.

Lemma update_inspector_written env cid num body db :
  healthy env ->
  committed (update_inspector env cid num body db).2
  = written (clock env) (InspectorUpdateOf cid num body) db /\
  (update_inspector env cid num body db).1
  = match items_of cid num db with
    | [] => Raise not_found
    | _ :: _ => Ok ok_true
    end.
Proof.
  intros Henv. rewrite written_inspector.
  rewrite (update_inspector_healthy _ _ _ _ _ Henv).
  destruct (items_of cid num db) eqn:E; simpl; [|done].
  by rewrite (update_where_miss _ _ _ E), store_eta.
Qed.

Lemma operator_set_keeps_key cid num body r :
  Item.at_key cid num (operator_set body r) <-> Item.at_key cid num r.
Proof. unfold operator_set. by destruct (OperatorUpdate.evidence_path body). Qed.

Lemma operator_set_idem body r : operator_set body (operator_set body r) = operator_set body r.
Proof. unfold operator_set. by destruct (OperatorUpdate.evidence_path body). Qed.

Lemma operator_inspector_comm bo acc fb r :
  operator_set bo (set_inspector acc fb r) = set_inspector acc fb (operator_set bo r).
Proof. unfold operator_set. by destruct (OperatorUpdate.evidence_path bo). Qed.

(** X11: the operator's and the inspector's update do not disturb each
    other: on any two keys, the same or not, the store after an operator
    update followed by an inspector update is the store after the two in
    the other order. *)
Theorem operator_and_inspector_updates_commute
    env1 env2 env3 env4 cid num body cid' num' body' db :
  healthy env1 -> healthy env2 -> healthy env3 -> healthy env4 ->
  committed (update_inspector env2 cid' num' body'
               (committed (update_operator env1 cid num body db).2)).2
  = committed (update_operator env4 cid num body
                 (committed (update_inspector env3 cid' num' body' db).2)).2.
Proof.
  intros H1 H2 H3 H4.
  rewrite (proj1 (update_inspector_written _ _ _ _ _ H2)).
  rewrite (proj1 (update_operator_written _ _ _ _ _ H1)).
  rewrite (proj1 (update_operator_written _ _ _ _ _ H4)).
  rewrite (proj1 (update_inspector_written _ _ _ _ _ H3)).
  rewrite !written_operator, !written_inspector. simpl. f_equal.
  apply update_where_comm.
  - intros r. apply operator_set_keeps_key.
  - done.
  - intros r. symmetry. apply operator_inspector_comm.
Qed.

Lemma items_of_update_where cid num set db :
  (forall r, Item.at_key cid num (set r) <-> Item.at_key cid num r) ->
  items_of cid num
    (mkStore (update_where (Item.at_key cid num) set (checklist_items db))
             (caps db) (cap_steps db))
  = set <$> items_of cid num db.
Proof. intros Hset. unfold items_of. simpl. by apply update_where_hit. Qed.

(** X12: an item update sent twice is as good as sent once: the second
    of two equal operator updates, or of two equal inspector updates,
    gives the answer of the first and leaves the store of the first. *)
Theorem item_updates_idempotent env1 env2 cid num db :
  healthy env1 -> healthy env2 ->
  (forall body,
     let first := update_operator env1 cid num body db in
     let second := update_operator env2 cid num body (committed first.2) in
     second.1 = first.1 /\ committed second.2 = committed first.2) /\
  (forall body,
     let first := update_inspector env1 cid num body db in
     let second := update_inspector env2 cid num body (committed first.2) in
     second.1 = first.1 /\ committed second.2 = committed first.2).
Proof.
  intros H1 H2. split; intros body; simpl.
  - destruct (update_operator_written env1 cid num body db H1) as [Hc1 Hr1].
    rewrite Hc1, Hr1.
    destruct (update_operator_written env2 cid num body
                (written (clock env1) (OperatorUpdateOf cid num body) db) H2)
      as [Hc2 Hr2].
    rewrite Hc2, Hr2. rewrite !written_operator. simpl. split.
    + rewrite items_of_update_where by (intros r; apply operator_set_keeps_key).
      by destruct (items_of cid num db).
    + f_equal. apply update_where_idem.
      * intros r. apply operator_set_keeps_key.
      * intros r. apply operator_set_idem.
  - destruct (update_inspector_written env1 cid num body db H1) as [Hc1 Hr1].
    rewrite Hc1, Hr1.
    destruct (update_inspector_written env2 cid num body
                (written (clock env1) (InspectorUpdateOf cid num body) db) H2)
      as [Hc2 Hr2].
    rewrite Hc2, Hr2. rewrite !written_inspector. simpl. split.
    + rewrite items_of_update_where by done.
      by destruct (items_of cid num db).
    + f_equal. by apply update_where_idem.
Qed.

Lemma renumbered_dates cid num (l : list CapStep.t) :
  Step.target_date <$> renumbered cid num l
  = (fun s => _parse_ddmmyyyy (CapStep.target_date s)) <$> l.
Proof.
  unfold renumbered. rewrite fmap_imap.
  rewrite <- (imap_const (fun s => _parse_ddmmyyyy (CapStep.target_date s)) l).
  by apply imap_ext.
Qed.

(** X13: the final date of a CAP right after its steps were replaced is
    the latest of the dates the request carried, read by
    [_parse_ddmmyyyy]; a date the parser does not take counts as no
    date. *)
Theorem final_date_after_replace env1 env2 cid num body db :
  healthy env1 -> healthy env2 ->
  let stored := committed (replace_cap_steps env1 cid num body db).2 in
  (compute_cap_final_date env2 cid num stored).1
  = Ok (final_date
          (isoformat <$>
             sql_max ((fun s => _parse_ddmmyyyy (CapStep.target_date s))
                        <$> CapStepsReplace.steps body))).
Proof.
  intros H1 H2. simpl.
  destruct (replace_cap_steps_healthy env1 cid num body db H1) as (_ & _ & Hc).
  rewrite (compute_cap_final_date_healthy _ _ _ _ H2).
  unfold max_target_date. rewrite Hc. cbn [fst cap_steps].
  by rewrite filter_app, filter_of_complement, renumbered_at_key, app_nil_l,
    renumbered_dates.
Qed.

(** ** More on the date parser *)

Lemma parse_Some_strptime s d :
  _parse_ddmmyyyy s = Some d <-> exists txt, s = Some txt /\ txt <> "" /\ strptime txt = Parsed d.
Proof.
  destruct s as [txt|]; simpl.
  - destruct (String.eqb_spec txt "") as [->|Hne].
    + split; [done|]. by intros (? & [= <-] & ? & _).
    + split.
      * destruct (strptime txt) eqn:E; [|done]. intros [= <-]. by exists txt.
      * intros (? & [= <-] & _ & ->). done.
  - split; [done|]. by intros (? & [=] & _).
Qed.

(** Texts of ASCII characters are their own UTF-8 bytes. *)
Lemma utf8_decode_ascii l :
  Forall (fun c => (code c < 128)%N) l -> utf8_decode l = Some (code <$> l).
Proof.
  induction 1 as [|c l Hc _ IH]; [done|].
  cbn [utf8_decode]. apply N.ltb_lt in Hc. by rewrite Hc, IH.
Qed.

(** The decoder reads a text made of two texts as the one followed by
    the other. *)
Lemma utf8_decode_app_bounded n : forall a b ca,
  (length a <= n)%nat ->
  utf8_decode a = Some ca ->
  utf8_decode (a ++ b) = app ca <$> utf8_decode b.
Proof.
  induction n as [|n IH]; intros a b ca Hn.
  { destruct a; [|simpl in Hn; lia]. intros [= <-]. simpl. by destruct (utf8_decode b). }
  destruct a as [|b0 s1]; [intros [= <-]; simpl; by destruct (utf8_decode b)|].
  rewrite <- app_comm_cons. cbn [utf8_decode]. cbn [length] in Hn.
  destruct (code b0 <? 128)%N.
  { destruct (utf8_decode s1) as [c1|] eqn:E; [|done]. intros [= <-].
    rewrite (IH s1 b c1) by (lia || done). by destruct (utf8_decode b). }
  destruct ((194 <=? code b0) && (code b0 <? 224))%N.
  { destruct s1 as [|b1 s2]; [done|]. rewrite <- app_comm_cons. cbn [length] in Hn.
    destruct (continuation (code b1)); [|done].
    destruct (utf8_decode s2) as [c2|] eqn:E; [|done]. intros [= <-].
    rewrite (IH s2 b c2) by (lia || done). by destruct (utf8_decode b). }
  destruct ((224 <=? code b0) && (code b0 <? 240))%N.
  { destruct s1 as [|b1 [|b2 s3]]; [done..|]. rewrite <- !app_comm_cons.
    cbn [length] in Hn. cbv zeta.
    match goal with |- context [if ?g then _ else None] => destruct g end; [|done].
    destruct (utf8_decode s3) as [c3|] eqn:E; [|done]. intros [= <-].
    rewrite (IH s3 b c3) by (lia || done). by destruct (utf8_decode b). }
  destruct ((240 <=? code b0) && (code b0 <? 245))%N; [|done].
  destruct s1 as [|b1 [|b2 [|b3 s4]]]; [done..|]. rewrite <- !app_comm_cons.
  cbn [length] in Hn. cbv zeta.
  match goal with |- context [if ?g then _ else None] => destruct g end; [|done].
  destruct (utf8_decode s4) as [c4|] eqn:E; [|done]. intros [= <-].
  rewrite (IH s4 b c4) by (lia || done). by destruct (utf8_decode b).
Qed.

Lemma utf8_decode_app a b ca :
  utf8_decode a = Some ca -> utf8_decode (a ++ b) = app ca <$> utf8_decode b.
Proof. by apply (utf8_decode_app_bounded (length a)). Qed.

(** Only the empty text has no code point. *)
Lemma utf8_decode_nil t : utf8_decode t = Some [] -> t = [].
Proof.
  destruct t as [|b0 s1]; [done|]. intros Ht. exfalso. revert Ht.
  cbn [utf8_decode]. cbv zeta.
  repeat match goal with
         | |- context [if ?g then _ else _] => destruct g
         | |- context [match ?l with [] => _ | _ :: _ => _ end] => destruct l
         end;
    try done;
    match goal with |- context [utf8_decode ?l] => by destruct (utf8_decode l) end.
Qed.

Lemma code_digit_char k : 0 <= k <= 9 -> code (digit_char k) = Z.to_N (48 + k).
Proof.
  intros Hk. unfold code, digit_char. apply N_ascii_embedding. lia.
Qed.

Lemma digit_char_ascii_digit k : 0 <= k <= 9 -> ascii_digit (code (digit_char k)).
Proof.
  intros Hk. unfold ascii_digit. rewrite (code_digit_char k Hk). codes. lia.
Qed.

Lemma digit_char_is_digit k : 0 <= k <= 9 -> is_digit (code (digit_char k)).
Proof. intros Hk. by apply ascii_digit_is_digit, digit_char_ascii_digit. Qed.

Lemma digit_value_digit_char k : 0 <= k <= 9 -> digit_value (code (digit_char k)) = k.
Proof.
  intros Hk. rewrite (digit_value_ascii _ (digit_char_ascii_digit k Hk)).
  rewrite (code_digit_char k Hk). lia.
Qed.

Lemma digit_char_below_128 k : 0 <= k <= 9 -> (code (digit_char k) < 128)%N.
Proof. intros Hk. rewrite (code_digit_char k Hk). lia. Qed.

Lemma split_digits n b :
  0 < b -> 0 <= n < b * b ->
  0 <= n / b < b /\ 0 <= n mod b < b /\ n = b * (n / b) + n mod b.
Proof.
  intros Hb Hn. pose proof (Z.div_mod n b ltac:(lia)) as Hdm.
  pose proof (Z.mod_pos_bound n b Hb) as Hm.
  split_and!; try lia.
  - apply Z.div_pos; lia.
  - apply Z.div_lt_upper_bound; lia.
Qed.

Lemma int_two_digits n : 0 <= n <= 99 -> int (code <$> two_digits n) = n.
Proof.
  intros Hn. unfold two_digits. rewrite !fmap_cons, fmap_nil.
  destruct (split_digits n 10 ltac:(lia) ltac:(lia)) as (Hq & Hr & Heq).
  rewrite int_two by (apply digit_char_is_digit; lia).
  rewrite !digit_value_digit_char by lia. lia.
Qed.

Lemma int_four a b c d :
  is_digit a ->
  int [a; b; c; d]
  = 1000 * digit_value a + 100 * digit_value b + 10 * digit_value c + digit_value d.
Proof. intros H. unfold int. rewrite (lstrip_digit a _ H). simpl. lia. Qed.

Lemma two_digits_text n : 0 <= n <= 99 ->
  ascii_digit (code (digit_char (n / 10))) /\
  ascii_digit (code (digit_char (n mod 10))) /\
  Forall (fun c => (code c < 128)%N) (two_digits n).
Proof.
  intros Hn.
  destruct (split_digits n 10 ltac:(lia) ltac:(lia)) as (Hq & Hr & Heq).
  split_and!; [apply digit_char_ascii_digit; lia..|].
  unfold two_digits. repeat constructor; apply digit_char_below_128; lia.
Qed.

Lemma four_digits_year n : 0 <= n <= 9999 ->
  year_text (code <$> four_digits n) /\ int (code <$> four_digits n) = n /\
  Forall (fun c => (code c < 128)%N) (four_digits n).
Proof.
  intros Hn. unfold four_digits, two_digits. simpl.
  destruct (split_digits n 100 ltac:(lia) ltac:(lia)) as (Hhi & Hlo & Heq).
  destruct (split_digits (n / 100) 10 ltac:(lia) ltac:(lia)) as (Ha & Hb & Hab).
  destruct (split_digits (n mod 100) 10 ltac:(lia) ltac:(lia)) as (Hc & Hd & Hcd).
  split_and!.
  - constructor; apply digit_char_is_digit; lia.
  - rewrite int_four by (apply digit_char_is_digit; lia).
    rewrite !digit_value_digit_char by lia. lia.
  - repeat constructor; apply digit_char_below_128; lia.
Qed.

(** X15: every date of the calendar, written [DD.MM.YYYY] with leading
    zeros, is read back as that date. *)
Theorem parse_reads_ddmmyyyy d :
  check_date_fields (year d) (month d) (day d) = true ->
  _parse_ddmmyyyy (Some (ddmmyyyy d)) = Some d.
Proof.
  intros Hcheck.
  assert (date_new (year d) (month d) (day d) = Some d) as Hnew.
  { unfold date_new. rewrite Hcheck. by destruct d. }
  destruct (date_new_Some _ _ _ _ Hnew) as (_ & Hm & Hd).
  assert (1 <= year d <= 9999) as Hy.
  { unfold check_date_fields in Hcheck.
    rewrite !andb_true_iff, !Z.leb_le in Hcheck. lia. }
  apply parse_Some_strptime. exists (ddmmyyyy d). split_and!; [done | done |].
  apply strptime_Parsed.
  exists (code <$> two_digits (day d)), (code <$> two_digits (month d)),
    (code <$> four_digits (year d)).
  destruct (two_digits_text (day d) ltac:(lia)) as (? & ? & Hdb).
  destruct (two_digits_text (month d) ltac:(lia)) as (? & ? & Hmb).
  destruct (four_digits_year (year d) ltac:(lia)) as (Hyt & Hyi & Hyb).
  split_and!.
  - unfold ddmmyyyy. rewrite list_ascii_of_string_of_list_ascii.
    rewrite utf8_decode_ascii.
    + by rewrite fmap_app, fmap_cons, fmap_app, fmap_cons.
    + apply Forall_app. split; [done|]. constructor; [by vm_compute|].
      apply Forall_app. split; [done|]. constructor; [by vm_compute | done].
  - unfold two_digits. rewrite !fmap_cons, fmap_nil.
    constructor; [done | by apply ascii_digit_is_digit | by left].
  - unfold two_digits. rewrite !fmap_cons, fmap_nil. by constructor.
  - done.
  - by rewrite Hyi, !int_two_digits by lia.
Qed.

Lemma list_ascii_of_string_append s t :
  list_ascii_of_string (s +:+ t) = list_ascii_of_string s ++ list_ascii_of_string t.
Proof. induction s as [|c s IH]; simpl; [done | by rewrite IH]. Qed.

Lemma is_digit_not_dot a : is_digit a -> a <> code ".".
Proof. intros Ha ->. unfold is_digit in Ha. simpl in Ha. discriminate Ha. Qed.

Lemma ascii_digit_not_dot a : ascii_digit a -> a <> code ".".
Proof. intros Ha. by apply is_digit_not_dot, ascii_digit_is_digit. Qed.

Lemma day_text_dot_free d : day_text d -> dot_free d.
Proof.
  intros [a b Ha Hb Hab|b Hb|b Hb]; unfold dot_free;
    repeat first [ apply List.Forall_nil | apply List.Forall_cons ];
    first [ by apply is_digit_not_dot | by apply ascii_digit_not_dot
          | by vm_compute ].
Qed.

Lemma month_text_dot_free m : month_text m -> dot_free m.
Proof.
  intros [a b Ha Hb|b Hb]; unfold dot_free;
    repeat first [ apply List.Forall_nil | apply List.Forall_cons ];
    by apply ascii_digit_not_dot.
Qed.

(** X16: nothing may follow a date: a text [_parse_ddmmyyyy] takes is not
    taken any more with further characters after it, whatever they are
    (blanks, a time of day, a line end). *)
Theorem parse_rejects_trailing_text s t d :
  _parse_ddmmyyyy (Some s) = Some d ->
  t <> "" ->
  _parse_ddmmyyyy (Some (s +:+ t)) = None.
Proof.
  intros Hs Ht.
  destruct (_parse_ddmmyyyy (Some (s +:+ t))) as [d'|] eqn:Hst; [|done].
  exfalso. apply Ht.
  apply parse_Some_strptime in Hs as (? & [= <-] & _ & Hs).
  apply parse_Some_strptime in Hst as (? & [= <-] & _ & Hst).
  apply strptime_Parsed in Hs as (d1 & m1 & y1 & Hs & Hd1 & Hm1 & Hy1 & _).
  apply strptime_Parsed in Hst as (d2 & m2 & y2 & Hst & Hd2 & Hm2 & Hy2 & _).
  rewrite list_ascii_of_string_append, (utf8_decode_app _ _ _ Hs) in Hst.
  destruct (utf8_decode (list_ascii_of_string t)) as [ct|] eqn:Et; [|done].
  injection Hst as Hst.
  rewrite <- app_assoc in Hst. simpl in Hst. rewrite <- app_assoc in Hst. simpl in Hst.
  apply dot_split in Hst as [-> Hst]; [|by apply day_text_dot_free..].
  apply dot_split in Hst as [-> Hst]; [|by apply month_text_dot_free..].
  destruct Hy1 as [a1 b1 c1 e1 _ _ _ _], Hy2 as [a2 b2 c2 e2 _ _ _ _].
  simpl in Hst. injection Hst as _ _ _ _ ->.
  apply utf8_decode_nil in Et. by destruct t.
Qed.

(** X17: [get_cap_steps] answers with the steps stored for the key, each
    once, in ascending order of [step_no], and writes nothing; a key
    without steps gives the empty list, not an error. *)
Theorem get_cap_steps_sorted env cid num db :
  healthy env ->
  let out := get_cap_steps env cid num db in
  exists rows,
    out.1 = Ok (step_view <$> rows) /\
    rows ≡ₚ steps_of cid num db /\
    StronglySorted (fun a b => Step.step_no a <= Step.step_no b) rows /\
    committed out.2 = db /\
    (steps_of cid num db = [] -> out.1 = Ok []).
Proof.
  intros Henv. simpl. rewrite (get_cap_steps_healthy _ _ _ _ Henv). simpl.
  exists (order_by Step.step_no (steps_of cid num db)).
  split_and!; [done | apply order_by_perm | apply order_by_sorted | done |].
  by intros ->.
Qed.

End Service.

(** The database of the interpreter. *)
Existing Instance unicode_14.

(** ** Sample runs *)

Example parse_0103 : _parse_ddmmyyyy (Some "01.03.2024") = Some (mkdate 2024 3 1).
Proof. reflexivity. Qed.
Example parse_3102 : _parse_ddmmyyyy (Some "31.02.2024") = None.
Proof. reflexivity. Qed.
Example parse_nad : _parse_ddmmyyyy (Some "not-a-date") = None.
Proof. reflexivity. Qed.
Example parse_short : _parse_ddmmyyyy (Some "1.3.2024") = Some (mkdate 2024 3 1).
Proof. reflexivity. Qed.
Example parse_blank : _parse_ddmmyyyy (Some " 1.3.2024") = Some (mkdate 2024 3 1).
Proof. reflexivity. Qed.

(** Decimal digits of other scripts, where [\d] of the directives takes
    them: the year in Arabic-Indic digits; the second digit of the day
    in Arabic-Indic and in fullwidth digits; the year in mathematical
    bold digits (beyond the basic plane).  Where the directives name
    the digits of ASCII they are not taken: day and month in
    Arabic-Indic digits; a fullwidth first digit of the day; a fullwidth
    digit after the 3 of a day. *)
Example parse_year_arabic_indic :
  _parse_ddmmyyyy (Some "01.03.٢٠٢٤") = Some (mkdate 2024 3 1).
Proof. reflexivity. Qed.
Example parse_day_second_digit_arabic_indic :
  _parse_ddmmyyyy (Some "1٢.03.2024") = Some (mkdate 2024 3 12).
Proof. reflexivity. Qed.
Example parse_day_second_digit_fullwidth :
  _parse_ddmmyyyy (Some "2９.02.2024") = Some (mkdate 2024 2 29).
Proof. reflexivity. Qed.
Example parse_year_mathematical_bold :
  _parse_ddmmyyyy (Some "01.03.𝟐𝟎𝟐𝟒") = Some (mkdate 2024 3 1).
Proof. reflexivity. Qed.
Example parse_all_arabic_indic : _parse_ddmmyyyy (Some "٠١.٠٣.٢٠٢٤") = None.
Proof. reflexivity. Qed.
Example parse_day_first_digit_fullwidth :
  _parse_ddmmyyyy (Some "３1.01.2024") = None.
Proof. reflexivity. Qed.
Example parse_day_31_fullwidth : _parse_ddmmyyyy (Some "3１.01.2024") = None.
Proof. reflexivity. Qed.
Example parse_not_utf8 :
  _parse_ddmmyyyy (Some (String (ascii_of_N 255) "1.03.2024")) = None.
Proof. reflexivity. Qed.

Example iso_ex : isoformat (mkdate 2024 1 20) = "2024-01-20".
Proof. reflexivity. Qed.
Example iso_ex2 : isoformat (mkdate 5 11 2) = "0005-11-02".
Proof. reflexivity. Qed.

Example upsert_twice :
  let body := CapUpsert.mk "fit a guard" None (Some "01.03.2024") in
  let first := upsert_cap (quiet sample_clock) 7 3 body sample_store in
  let second :=
    upsert_cap (quiet (mkClock 1700000600 None)) 7 3 body (committed first.2) in
  caps_of 7 3 (committed first.2)
  = [Cap.mk 7 3 (Some "fit a guard") None (Some (mkdate 2024 3 1)) (Some 1700000000)] /\
  caps_of 7 3 (committed second.2)
  = [Cap.mk 7 3 (Some "fit a guard") None (Some (mkdate 2024 3 1)) (Some 1700000600)].
Proof. split; reflexivity. Qed.

Example replace_fails_part_way :
  let out := replace_cap_steps failing_env 7 3 sample_steps sample_store in
  out.1 = Raise (HTTPException 500 "Replace CAP steps error: connection lost") /\
  committed out.2 = sample_store /\
  trace out.2
  = [Cursor; Execute (DELETE_cap_steps 7 3);
     Execute (INSERT_cap_steps 7 3 1 "a" (Some (mkdate 2024 1 5)));
     Execute (INSERT_cap_steps 7 3 2 "b" None);
     Rollback; CursorClose; PutConn].
Proof. repeat split; reflexivity. Qed.

(** The 404 of an item update leaves the handler without
    [conn.rollback()]; the pool rolls the connection back when it takes
    it, or the connection is closed. *)
Example not_found_rolled_back_by_pool :
  let out :=
    update_operator (quiet sample_clock) 1 9
      (OperatorUpdate.mk "closed" "checked" None) sample_store in
  out.1 = Raise (HTTPException 404 "Item not found") /\
  trace out.2
  = [Cursor; Execute (UPDATE_items_operator "closed" "checked" 1 9);
     CursorClose; PutConn; Rollback] /\
  in_transaction out.2 = false.
Proof. repeat split; reflexivity. Qed.

Example not_found_closed_by_pool :
  let out :=
    update_inspector (mkEnv None (fun _ => None) sample_clock false) 1 9
      (InspectorUpdate.mk (Some "accepted") None) sample_store in
  out.1 = Raise (HTTPException 404 "Item not found") /\
  trace out.2
  = [Cursor; Execute (UPDATE_items_inspector (Some "accepted") None 1 9);
     CursorClose; PutConn; Close] /\
  in_transaction out.2 = false.
Proof. repeat split; reflexivity. Qed.

(** When [conn.cursor()] raises there is no cursor to close. *)
Example cursor_fails :
  let env :=
    mkEnv None (fun k => if Nat.eqb k 0 then Some "connection lost" else None)
          sample_clock true in
  let out := upsert_cap env 7 3 (CapUpsert.mk "fit a guard" None None) sample_store in
  out.1 = Raise (HTTPException 500 "Upsert CAP error: connection lost") /\
  trace out.2 = [Cursor; Rollback; PutConn] /\
  committed out.2 = sample_store.
Proof. repeat split; reflexivity. Qed.

Example operator_update_keeps_evidence :
  checklist_items
    (committed (update_operator (quiet sample_clock) 1 1
                  (OperatorUpdate.mk "closed" "guard fitted" None) sample_store).2)
  !! 0%nat
  = Some (Item.mk 1 1 (Some "R-1") (Some "Is the guard fitted?")
            (Some "closed") (Some "photo.png") (Some "guard fitted")
            (Some "rejected") (Some "fit the guard")).
Proof. reflexivity. Qed.

(** ** The statements on the sample data *)

(** C4, counterexample: a text with a one-digit day and a one-digit
    month is not of the form two digits, dot, two digits, dot, four
    digits, and [_parse_ddmmyyyy] returns a date for it. *)
Lemma parse_ddmmyyyy_beyond_pattern :
  _parse_ddmmyyyy (Some "1.3.2024") = Some (mkdate 2024 3 1) /\
  ~ DD_MM_YYYY "1.3.2024".
Proof.
  split; [reflexivity|].
  intros (a & b & c & d & e & f & g & h & _ & H). vm_compute in H. discriminate H.
Qed.

(** C10, counterexample: a target date that is not of the form
    DD.MM.YYYY does not store NULL when the parser takes it: for
    ["1.3.2024"] the row holds 1 March 2024. *)
Lemma upsert_cap_stores_off_pattern_date :
  let out :=
    upsert_cap (quiet sample_clock) 7 3
      (CapUpsert.mk "fit a guard" None (Some "1.3.2024")) sample_store in
  ~ DD_MM_YYYY "1.3.2024" /\
  out.1 = Ok ok_true /\
  Cap.target_date <$> caps_of 7 3 (committed out.2) = [Some (mkdate 2024 3 1)].
Proof.
  split; [|split; reflexivity].
  intros (a & b & c & d & e & f & g & h & _ & H). vm_compute in H. discriminate H.
Qed.

Lemma replace_cap_steps_renumbers_witness :
  healthy (quiet sample_clock) /\
  steps_of 7 3 (committed (replace_cap_steps (quiet sample_clock) 7 3
                             sample_steps sample_store).2)
  = [Step.mk 7 3 1 (Some "a") (Some (mkdate 2024 1 5));
     Step.mk 7 3 2 (Some "b") None].
Proof.
  assert (healthy (quiet sample_clock)) as H
    by (split; [reflexivity | intro; reflexivity]).
  split; [exact H|].
  exact (proj1 (proj2 (proj2
           (replace_cap_steps_renumbers (quiet sample_clock) 7 3
              sample_steps sample_store H)))).
Defined.

Lemma update_operator_partial_witness :
  healthy (quiet sample_clock) /\
  items_of 1 1 sample_store <> [] /\
  (update_operator (quiet sample_clock) 1 1
     (OperatorUpdate.mk "closed" "guard fitted" None) sample_store).1
  = Ok ok_true.
Proof.
  assert (healthy (quiet sample_clock)) as H
    by (split; [reflexivity | intro; reflexivity]).
  assert (items_of 1 1 sample_store <> []) as Hex
    by (vm_compute; discriminate).
  split; [exact H|]. split; [exact Hex|].
  exact (proj1 (update_operator_partial (quiet sample_clock) 1 1
                  (OperatorUpdate.mk "closed" "guard fitted" None)
                  sample_store H Hex)).
Defined.

Lemma update_inspector_overwrites_witness :
  healthy (quiet sample_clock) /\
  items_of 1 1 sample_store <> [] /\
  (update_inspector (quiet sample_clock) 1 1
     (InspectorUpdate.mk (Some "accepted") None) sample_store).1
  = Ok ok_true.
Proof.
  assert (healthy (quiet sample_clock)) as H
    by (split; [reflexivity | intro; reflexivity]).
  assert (items_of 1 1 sample_store <> []) as Hex
    by (vm_compute; discriminate).
  split; [exact H|]. split; [exact Hex|].
  exact (proj1 (update_inspector_overwrites (quiet sample_clock) 1 1
                  (InspectorUpdate.mk (Some "accepted") None)
                  sample_store H Hex)).
Defined.

Lemma upsert_cap_update_then_insert_witness :
  healthy (quiet sample_clock) /\
  (length (caps_of 7 3 sample_store) <= 1)%nat /\
  length (caps_of 7 3
            (committed (upsert_cap (quiet sample_clock) 7 3
                          (CapUpsert.mk "fit a guard" None (Some "01.03.2024"))
                          sample_store).2)) = 1%nat.
Proof.
  assert (healthy (quiet sample_clock)) as H
    by (split; [reflexivity | intro; reflexivity]).
  assert (length (caps_of 7 3 sample_store) <= 1)%nat as Hone
    by (vm_compute; lia).
  split; [exact H|]. split; [exact Hone|].
  exact (proj1 (proj2 (proj2
           (upsert_cap_update_then_insert (quiet sample_clock) 7 3
              (CapUpsert.mk "fit a guard" None (Some "01.03.2024"))
              sample_store H Hone)))).
Defined.

Lemma upsert_cap_writes_all_fields_witness :
  healthy (quiet sample_clock) /\
  (upsert_cap (quiet sample_clock) 7 3
     (CapUpsert.mk "fit a guard" None (Some "not-a-date")) sample_store).1
  = Ok ok_true.
Proof.
  assert (healthy (quiet sample_clock)) as H
    by (split; [reflexivity | intro; reflexivity]).
  split; [exact H|].
  exact (proj1 (upsert_cap_writes_all_fields (quiet sample_clock) 7 3
                  (CapUpsert.mk "fit a guard" None (Some "not-a-date"))
                  sample_store H)).
Defined.

Lemma replace_cap_steps_idempotent_witness :
  healthy (quiet sample_clock) /\
  healthy (quiet (mkClock 1700000600 None)) /\
  committed (replace_cap_steps (quiet (mkClock 1700000600 None)) 7 3 sample_steps
               (committed (replace_cap_steps (quiet sample_clock) 7 3
                             sample_steps sample_store).2)).2
  = committed (replace_cap_steps (quiet sample_clock) 7 3
                 sample_steps sample_store).2.
Proof.
  assert (healthy (quiet sample_clock)) as H1
    by (split; [reflexivity | intro; reflexivity]).
  assert (healthy (quiet (mkClock 1700000600 None))) as H2
    by (split; [reflexivity | intro; reflexivity]).
  split; [exact H1|]. split; [exact H2|].
  exact (proj1 (proj2 (proj2
           (replace_cap_steps_idempotent (quiet sample_clock)
              (quiet (mkClock 1700000600 None)) 7 3 sample_steps sample_store
              H1 H2)))).
Defined.

Lemma compute_cap_final_date_is_max_witness :
  healthy (quiet sample_clock) /\
  committed (compute_cap_final_date (quiet sample_clock) 7 3 sample_store).2
  = sample_store.
Proof.
  assert (healthy (quiet sample_clock)) as H
    by (split; [reflexivity | intro; reflexivity]).
  split; [exact H|].
  exact (proj1 (compute_cap_final_date_is_max (quiet sample_clock) 7 3
                  sample_store H)).
Defined.

Lemma item_updates_not_found_witness :
  items_of 1 9 sample_store = [] /\
  committed (update_operator (quiet sample_clock) 1 9
               (OperatorUpdate.mk "closed" "guard fitted" (Some "new.png"))
               sample_store).2
  = sample_store.
Proof.
  assert (items_of 1 9 sample_store = []) as Hmiss by reflexivity.
  split; [exact Hmiss|].
  exact (proj1 (proj1 (item_updates_not_found (quiet sample_clock) 1 9
                         sample_store Hmiss)
                  (OperatorUpdate.mk "closed" "guard fitted" (Some "new.png")))).
Defined.

Lemma mutations_roll_back_on_error_witness :
  (run_mutation (quiet sample_clock)
     (OperatorUpdateOf 1 9 (OperatorUpdate.mk "closed" "checked" None))
     sample_store).1
  = Raise (HTTPException 404 "Item not found") /\
  in_transaction
    (run_mutation (quiet sample_clock)
       (OperatorUpdateOf 1 9 (OperatorUpdate.mk "closed" "checked" None))
       sample_store).2
  = false /\
  committed
    (run_mutation (quiet sample_clock)
       (OperatorUpdateOf 1 9 (OperatorUpdate.mk "closed" "checked" None))
       sample_store).2
  = sample_store.
Proof.
  assert ((run_mutation (quiet sample_clock)
             (OperatorUpdateOf 1 9 (OperatorUpdate.mk "closed" "checked" None))
             sample_store).1
          = Raise (HTTPException 404 "Item not found")) as Hfail by reflexivity.
  split; [exact Hfail|].
  pose proof (mutations_roll_back_on_error (quiet sample_clock)
                (OperatorUpdateOf 1 9 (OperatorUpdate.mk "closed" "checked" None))
                sample_store _ Hfail) as (_ & _ & Ht & Hc & _).
  split; [exact Ht | exact Hc].
Defined.

(** ** The further statements on the sample data *)

Lemma get_checklist_items_sorted_witness :
  healthy (quiet sample_clock) /\
  exists rows,
    (get_checklist_items (quiet sample_clock) 1 sample_store).1
    = Ok (item_view <$> rows) /\
    rows ≡ₚ items_in 1 sample_store.
Proof.
  assert (healthy (quiet sample_clock)) as H
    by (split; [reflexivity | intro; reflexivity]).
  split; [exact H|].
  destruct (get_checklist_items_sorted (quiet sample_clock) 1 sample_store H)
    as (rows & Hr & Hp & _).
  exists rows. split; [exact Hr | exact Hp].
Defined.

Lemma get_cap_steps_after_replace_witness :
  healthy (quiet sample_clock) /\
  (get_cap_steps (quiet sample_clock) 7 3
     (committed (replace_cap_steps (quiet sample_clock) 7 3
                   sample_steps sample_store).2)).1
  = Ok [StepView.mk 1 (Some "a") (Some (mkdate 2024 1 5));
        StepView.mk 2 (Some "b") None].
Proof.
  assert (healthy (quiet sample_clock)) as H
    by (split; [reflexivity | intro; reflexivity]).
  split; [exact H|].
  exact (get_cap_steps_after_replace (quiet sample_clock) (quiet sample_clock)
           7 3 sample_steps sample_store H H).
Defined.

Lemma get_cap_after_upsert_witness :
  healthy (quiet sample_clock) /\
  (get_cap (quiet sample_clock) 7 3
     (committed (upsert_cap (quiet sample_clock) 7 3
                   (CapUpsert.mk "fit a guard" None (Some "1.3.2024"))
                   sample_store).2)).1
  = Ok (Some (CapView.mk (Some "fit a guard") None (Some (mkdate 2024 3 1)))).
Proof.
  assert (healthy (quiet sample_clock)) as H
    by (split; [reflexivity | intro; reflexivity]).
  split; [exact H|].
  exact (get_cap_after_upsert (quiet sample_clock) (quiet sample_clock) 7 3
           (CapUpsert.mk "fit a guard" None (Some "1.3.2024")) sample_store H H).
Defined.

Lemma get_cap_missing_is_empty_witness :
  healthy (quiet sample_clock) /\
  committed (get_cap (quiet sample_clock) 7 3 sample_store).2 = sample_store.
Proof.
  assert (healthy (quiet sample_clock)) as H
    by (split; [reflexivity | intro; reflexivity]).
  split; [exact H|].
  exact (proj1 (get_cap_missing_is_empty (quiet sample_clock) 7 3 sample_store H)).
Defined.

Lemma mutation_success_is_complete_witness :
  (run_mutation failing_env
     (OperatorUpdateOf 1 1 (OperatorUpdate.mk "closed" "guard fitted" None))
     sample_store).1 = Ok ok_true /\
  (run_mutation (quiet (clock failing_env))
     (OperatorUpdateOf 1 1 (OperatorUpdate.mk "closed" "guard fitted" None))
     sample_store).1 = Ok ok_true.
Proof.
  assert ((run_mutation failing_env
             (OperatorUpdateOf 1 1 (OperatorUpdate.mk "closed" "guard fitted" None))
             sample_store).1 = Ok ok_true) as Hok by reflexivity.
  split; [exact Hok|].
  exact (proj1 (mutation_success_is_complete failing_env
                  (OperatorUpdateOf 1 1
                     (OperatorUpdate.mk "closed" "guard fitted" None))
                  sample_store ok_true Hok)).
Defined.

Lemma mutations_keep_one_cap_per_key_witness :
  one_cap_per_key sample_store /\
  one_cap_per_key
    (committed (run_mutation (quiet sample_clock)
                  (CapUpsertOf 7 3 (CapUpsert.mk "fit a guard" None None))
                  sample_store).2).
Proof.
  assert (one_cap_per_key sample_store) as H
    by (intros cid num; simpl; lia).
  split; [exact H|].
  exact (mutations_keep_one_cap_per_key (quiet sample_clock)
           (CapUpsertOf 7 3 (CapUpsert.mk "fit a guard" None None))
           sample_store H).
Defined.

Lemma mutations_keep_step_keys_distinct_witness :
  step_keys_distinct sample_store /\
  step_keys_distinct
    (committed (run_mutation (quiet sample_clock)
                  (CapStepsReplaceOf 7 3 sample_steps) sample_store).2).
Proof.
  assert (step_keys_distinct sample_store) as H
    by (apply (bool_decide_unpack _); vm_compute; reflexivity).
  split; [exact H|].
  exact (mutations_keep_step_keys_distinct (quiet sample_clock)
           (CapStepsReplaceOf 7 3 sample_steps) sample_store H).
Defined.

Lemma operator_and_inspector_updates_commute_witness :
  healthy (quiet sample_clock) /\
  committed (update_inspector (quiet sample_clock) 1 1
               (InspectorUpdate.mk (Some "accepted") None)
               (committed (update_operator (quiet sample_clock) 1 1
                             (OperatorUpdate.mk "closed" "guard fitted" None)
                             sample_store).2)).2
  = committed (update_operator (quiet sample_clock) 1 1
                 (OperatorUpdate.mk "closed" "guard fitted" None)
                 (committed (update_inspector (quiet sample_clock) 1 1
                               (InspectorUpdate.mk (Some "accepted") None)
                               sample_store).2)).2.
Proof.
  assert (healthy (quiet sample_clock)) as H
    by (split; [reflexivity | intro; reflexivity]).
  split; [exact H|].
  exact (operator_and_inspector_updates_commute
           (quiet sample_clock) (quiet sample_clock)
           (quiet sample_clock) (quiet sample_clock) 1 1
           (OperatorUpdate.mk "closed" "guard fitted" None) 1 1
           (InspectorUpdate.mk (Some "accepted") None) sample_store H H H H).
Defined.

Lemma item_updates_idempotent_witness :
  healthy (quiet sample_clock) /\
  committed (update_operator (quiet sample_clock) 1 1
               (OperatorUpdate.mk "closed" "guard fitted" (Some "new.png"))
               (committed (update_operator (quiet sample_clock) 1 1
                             (OperatorUpdate.mk "closed" "guard fitted" (Some "new.png"))
                             sample_store).2)).2
  = committed (update_operator (quiet sample_clock) 1 1
                 (OperatorUpdate.mk "closed" "guard fitted" (Some "new.png"))
                 sample_store).2.
Proof.
  assert (healthy (quiet sample_clock)) as H
    by (split; [reflexivity | intro; reflexivity]).
  split; [exact H|].
  exact (proj2 (proj1 (item_updates_idempotent (quiet sample_clock)
                         (quiet sample_clock) 1 1 sample_store H H)
                  (OperatorUpdate.mk "closed" "guard fitted" (Some "new.png")))).
Defined.

Lemma final_date_after_replace_witness :
  healthy (quiet sample_clock) /\
  (compute_cap_final_date (quiet sample_clock) 7 3
     (committed (replace_cap_steps (quiet sample_clock) 7 3
                   sample_steps sample_store).2)).1
  = Ok (final_date (Some "2024-01-05")).
Proof.
  assert (healthy (quiet sample_clock)) as H
    by (split; [reflexivity | intro; reflexivity]).
  split; [exact H|].
  exact (final_date_after_replace (quiet sample_clock) (quiet sample_clock)
           7 3 sample_steps sample_store H H).
Defined.

Lemma parse_reads_ddmmyyyy_witness :
  check_date_fields 2024 2 29 = true /\
  _parse_ddmmyyyy (Some (ddmmyyyy (mkdate 2024 2 29))) = Some (mkdate 2024 2 29).
Proof.
  assert (check_date_fields 2024 2 29 = true) as H by reflexivity.
  split; [exact H|].
  exact (parse_reads_ddmmyyyy (mkdate 2024 2 29) H).
Defined.

Lemma parse_rejects_trailing_text_witness :
  _parse_ddmmyyyy (Some "01.03.2024") = Some (mkdate 2024 3 1) /\
  " 10:00" <> "" /\
  _parse_ddmmyyyy (Some ("01.03.2024" +:+ " 10:00")) = None.
Proof.
  assert (_parse_ddmmyyyy (Some "01.03.2024") = Some (mkdate 2024 3 1)) as H
    by reflexivity.
  assert (" 10:00" <> "") as Ht by discriminate.
  split; [exact H|]. split; [exact Ht|].
  exact (parse_rejects_trailing_text "01.03.2024" " 10:00" _ H Ht).
Defined.

Lemma get_cap_steps_sorted_witness :
  healthy (quiet sample_clock) /\
  exists rows,
    (get_cap_steps (quiet sample_clock) 7 3 sample_store).1
    = Ok (step_view <$> rows) /\
    rows ≡ₚ steps_of 7 3 sample_store.
Proof.
  assert (healthy (quiet sample_clock)) as H
    by (split; [reflexivity | intro; reflexivity]).
  split; [exact H|].
  destruct (get_cap_steps_sorted (quiet sample_clock) 7 3 sample_store H)
    as (rows & Hr & Hp & _).
  exists rows. split; [exact Hr | exact Hp].
Defined.
